(** * Dashboard widget layout engine

    A shallow embedding of the grid-packing code of the dashboard
    ([compactLayoutsUtil], [findNextGridPosition]) and of the layout loader
    ([parseWidgetLayouts]), all three from
    [src/components/settings/AccountSettingsPage.tsx], together with the
    properties the specification states about them. *)

From stdpp Require Import gmap strings list fin_maps sorting.
From Stdlib Require Import ZArith QArith Lia.

Local Open Scope Z_scope.
#[local] Set Warnings "-clear-no-such-hyp".

(** ** Data model *)

(** Modelled from the spec: the declarations of [WidgetLayoutConfig] and of
    the placement it maps to live in [DashboardCustomizeModal], which is not
    part of the sources at hand. Section 3 of the specification gives a
    placement four integer fields x, y, w, h, and a layout is a mapping from
    widget identifier to placement. *)
Record WidgetLayout := mkLayout { wx : Z; wy : Z; ww : Z; wh : Z }.

(** Widget keys are the property names of the layout object. *)
Abbreviation WidgetLayoutConfig := (gmap string WidgetLayout).

Definition GRID_COLS : Z := 12.

(** ** The occupancy grid

    [const grid: boolean[][] = []] is a sparse array of rows; a row, once
    created, is [new Array(GRID_COLS).fill(false)] and single cells are set
    to [true] afterwards. Indices are JavaScript property keys, so both
    levels are finite maps keyed by integers. *)
Abbreviation Grid := (gmap Z (gmap Z bool)).

(** [new Array(GRID_COLS).fill(false)] *)
Definition new_row : gmap Z bool :=
  list_to_map ((λ c, (c, false)) <$> seqZ 0 GRID_COLS).

(** [grid[r]?.[c]] read as a condition: a missing row or a missing cell is
    [undefined], which is falsy. *)
Definition cell (grid : Grid) (r c : Z) : bool :=
  match grid !! r with
  | Some row => default false (row !! c)
  | None => false
  end.

(** [if (!grid[r]) grid[r] = new Array(GRID_COLS).fill(false)] *)
Definition ensure_row (grid : Grid) (r : Z) : Grid :=
  match grid !! r with
  | Some _ => grid
  | None => <[r := new_row]> grid
  end.

(** [grid[r][c] = true]. Every call site creates the row first and only
    then sets cells in it ([ensure_row_is_Some], [set_cell_is_Some] below),
    so the row is there; on a missing row JavaScript would throw and the
    model leaves the grid as it is. *)
Definition set_cell (grid : Grid) (r c : Z) : Grid :=
  match grid !! r with
  | Some row => <[r := <[c := true]> row]> grid
  | None => grid
  end.

(** ** compactLayoutsUtil *)

Module Compact.

(** The closure [canPlace]: the two nested loops return [false] at the first
    occupied cell, which is a conjunction over all the cells. *)
Definition canPlace (grid : Grid) (x y w h : Z) : bool :=
  if (x <? 0) || (x + w >? GRID_COLS) then false
  else forallb (λ dy, forallb (λ dx, negb (cell grid (y + dy) (x + dx)))
                              (seqZ 0 w))
               (seqZ 0 h).

(** The closure [occupy]. *)
Definition occupy (grid : Grid) (x y w h : Z) : Grid :=
  foldl (λ g dy,
           foldl (λ g' dx, set_cell g' (y + dy) (x + dx))
                 (ensure_row g (y + dy))
                 (seqZ 0 w))
        grid (seqZ 0 h).

(** An element of [items]: [{ key, ...layouts[key] }]. *)
Definition Item : Type := string * WidgetLayout.

(** The comparator [(a, b) => a.y - b.y || a.x - b.x]. *)
Definition compareItems (a b : Item) : Z :=
  if decide (wy a.2 - wy b.2 = 0) then wx a.2 - wx b.2 else wy a.2 - wy b.2.

(** [Array.prototype.sort] is a stable sort: with a consistent comparator its
    result is the one stable arrangement, which insertion from the right
    computes (an element is put before the first element it does not
    exceed, hence before its equals that came later). *)
Fixpoint insertItem (a : Item) (l : list Item) : list Item :=
  match l with
  | [] => [a]
  | b :: l' => if decide (compareItems a b ≤ 0) then a :: l
               else b :: insertItem a l'
  end.

Definition sortItems (l : list Item) : list Item := foldr insertItem [] l.

(** [visibleKeys.filter(key => layouts[key]).map(key => ({ key, ...layouts[key] }))]
    followed by the sort. *)
Definition unsortedItems (layouts : WidgetLayoutConfig)
    (visibleKeys : list string) : list Item :=
  omap (λ key, (λ l, (key, l)) <$> layouts !! key) visibleKeys.

Definition items (layouts : WidgetLayoutConfig)
    (visibleKeys : list string) : list Item :=
  sortItems (unsortedItems layouts visibleKeys).

(** The two mutable locals of the function. *)
Record State := mkState {
  compacted : WidgetLayoutConfig;
  grid : Grid
}.

Definition initial : State := {| compacted := ∅; grid := ∅ |}.

(** The two [for] loops with the [!placed] guard stop at the first accepted
    candidate: the inner one over the columns of a row, the outer one over
    the rows. *)
Definition scanRow (g : Grid) (w h y : Z) : option Z :=
  List.find (λ x, canPlace g x y w h) (seqZ 0 (GRID_COLS - w + 1)).

Fixpoint scanRows (g : Grid) (w h : Z) (ys : list Z) : option (Z * Z) :=
  match ys with
  | [] => None
  | y :: ys' =>
      match scanRow g w h y with
      | Some x => Some (x, y)
      | None => scanRows g w h ys'
      end
  end.

Definition firstFit (g : Grid) (w h : Z) : option (Z * Z) :=
  scanRows g w h (seqZ 0 100).

(** The body of [items.forEach(item => ...)]. *)
Definition step (st : State) (item : Item) : State :=
  let w := ww item.2 in
  let h := wh item.2 in
  match firstFit (grid st) w h with
  | Some (x, y) =>
      {| compacted := <[item.1 := mkLayout x y w h]> (compacted st);
         grid := occupy (grid st) x y w h |}
  | None =>
      let fallbackY := 2 * Z.of_nat (size (compacted st)) in
      {| compacted := <[item.1 := mkLayout 0 fallbackY w h]> (compacted st);
         grid := occupy (grid st) 0 fallbackY w h |}
  end.

Definition compactLayoutsUtil (layouts : WidgetLayoutConfig)
    (visibleKeys : list string) : WidgetLayoutConfig :=
  compacted (foldl step initial (items layouts visibleKeys)).

End Compact.

(** ** findNextGridPosition *)

Module FindNext.

(** The local constant [COLS]; it equals [GRID_COLS], so the rows created
    here are those of [new_row]. *)
Definition COLS : Z := 12.

(** The returned object [{ x, y }]. *)
Record Position := mkPosition { px : Z; py : Z }.

(** The body of [Object.values(existingLayouts).forEach(layout => ...)]:
    rows [layout.y .. layout.y + layout.h - 1], columns [layout.x] up to
    [Math.min(layout.x + layout.w, COLS) - 1]. The guard
    [if (!layout) return] never fires on a placement, which is an object. *)
Definition markLayout (g : Grid) (layout : WidgetLayout) : Grid :=
  foldl (λ g row,
           foldl (λ g' col, set_cell g' row col)
                 (ensure_row g row)
                 (seqZ (wx layout)
                       (Z.min (wx layout + ww layout) COLS - wx layout)))
        g (seqZ (wy layout) (wh layout)).

Definition buildGrid (existingLayouts : WidgetLayoutConfig) : Grid :=
  map_fold (λ _ layout g, markLayout g layout) ∅ existingLayouts.

(** The loop over [dy] with its [fits] flag. It creates the rows it reads,
    so the grid is threaded through. *)
Fixpoint fitsRows (g : Grid) (x y widgetWidth : Z) (dys : list Z) : Grid * bool :=
  match dys with
  | [] => (g, true)
  | dy :: dys' =>
      let g1 := ensure_row g (y + dy) in
      if forallb (λ dx, negb (cell g1 (y + dy) (x + dx))) (seqZ 0 widgetWidth)
      then fitsRows g1 x y widgetWidth dys'
      else (g1, false)
  end.

(** The loop over [x] within one row: [Some x] is [return { x, y }]. *)
Fixpoint scanCols (g : Grid) (widgetWidth widgetHeight y : Z) (xs : list Z)
    : Grid * option Z :=
  match xs with
  | [] => (g, None)
  | x :: xs' =>
      let '(g1, fits) := fitsRows g x y widgetWidth (seqZ 0 widgetHeight) in
      if fits then (g1, Some x)
      else scanCols g1 widgetWidth widgetHeight y xs'
  end.

(** The loop over [y]. *)
Fixpoint scanRows (g : Grid) (widgetWidth widgetHeight : Z) (ys : list Z)
    : option Position :=
  match ys with
  | [] => None
  | y :: ys' =>
      match scanCols (ensure_row g y) widgetWidth widgetHeight y
                     (seqZ 0 (COLS - widgetWidth + 1)) with
      | (_, Some x) => Some (mkPosition x y)
      | (g1, None) => scanRows g1 widgetWidth widgetHeight ys'
      end
  end.

(** The whole bounded scan; [None] when the loops run to their end. *)
Definition firstFit (existingLayouts : WidgetLayoutConfig)
    (widgetWidth widgetHeight : Z) : option Position :=
  scanRows (buildGrid existingLayouts) widgetWidth widgetHeight (seqZ 0 100).

Definition findNextGridPosition (existingLayouts : WidgetLayoutConfig)
    (widgetWidth widgetHeight : Z) : Position :=
  match firstFit existingLayouts widgetWidth widgetHeight with
  | Some p => p
  | None => mkPosition 0 (2 * Z.of_nat (size existingLayouts))
  end.

End FindNext.

(** ** parseWidgetLayouts *)

Module Loader.

(** The values of a JSON column. *)
#[warnings="-register-all"]
Inductive Json :=
  | JNull
  | JBoolean (b : bool)
  | JNumber (q : Q)
  | JString (s : string)
  | JArray (elements : list Json)
  | JObject (properties : list (string * Json)).

(** The selected row of [dashboard_preferences]. *)
Record DashboardPrefs := mkPrefs {
  visible_widgets : Json;
  card_order : Json;
  layout_view : Json
}.

(** A computation either returns or throws. *)
Inductive Outcome (A : Type) :=
  | Return (a : A)
  | Throw (error : string).
Arguments Return {A} a.
Arguments Throw {A} error.

Definition bind {A B} (m : Outcome A) (k : A → Outcome B) : Outcome B :=
  match m with
  | Return a => k a
  | Throw e => Throw e
  end.

(** [try { body } catch { handler }] *)
Definition tryCatch {A} (body : Outcome A) (handler : string → Outcome A)
    : Outcome A :=
  match body with
  | Return a => Return a
  | Throw e => handler e
  end.

(** [typeof v]; [None] stands for [undefined]. *)
Definition typeof (v : option Json) : string :=
  match v with
  | None => "undefined"
  | Some JNull => "object"
  | Some (JBoolean _) => "boolean"
  | Some (JNumber _) => "number"
  | Some (JString _) => "string"
  | Some (JArray _) => "object"
  | Some (JObject _) => "object"
  end.

(** Truthiness, as [!v] tests it. *)
Definition truthy (v : option Json) : bool :=
  match v with
  | None => false
  | Some JNull => false
  | Some (JBoolean b) => b
  | Some (JNumber q) => negb (Qeq_bool q 0%Q)
  | Some (JString s) => negb (bool_decide (s = EmptyString))
  | Some (JArray _) => true
  | Some (JObject _) => true
  end.

(** [v !== null] *)
Definition notNull (v : Json) : bool :=
  match v with JNull => false | _ => true end.

(** [typeof v === "object" && v !== null] *)
Definition isObject (v : Json) : bool :=
  bool_decide (typeof (Some v) = "object") && notNull v.

(** The literal [{}]. *)
Definition emptyLayout : Json := JObject [].

Section Parse.

(** [JSON.parse] belongs to the platform: it returns the parsed value or
    throws a [SyntaxError]. *)
Variable JSON_parse : string → Outcome Json.

(** The [try] block: [Some v] is [return v], [None] falls through to the
    statement after the block. *)
Definition tryParse (s : string) : Outcome (option Json) :=
  tryCatch
    (bind (JSON_parse s) (λ parsed,
       if isObject parsed
       then Return (Some parsed)
       else Return None))
    (λ _, Return None).

(** [dashboardPrefs] is [None] while the query has no row;
    [dashboardPrefs?.layout_view] is then [undefined]. The inner [match]
    is the test [typeof ... === "string"]. *)
Definition parseWidgetLayouts (dashboardPrefs : option DashboardPrefs)
    : Outcome Json :=
  let v := layout_view <$> dashboardPrefs in
  if negb (truthy v) then Return emptyLayout
  else if bool_decide (typeof v = "object") then
    match v with Some j => Return j | None => Return emptyLayout end
  else
    bind (match v with
          | Some (JString s) => tryParse s
          | _ => Return None
          end)
         (λ r, match r with
               | Some parsed => Return parsed
               | None => Return emptyLayout
               end).

End Parse.

End Loader.

(** ** Vocabulary of the specification *)

(** The cell in row [r], column [c] belongs to the footprint of [p]. *)
Definition inFootprint (p : WidgetLayout) (r c : Z) : Prop :=
  wy p ≤ r < wy p + wh p ∧ wx p ≤ c < wx p + ww p.

Definition intersects (p q : WidgetLayout) : Prop :=
  ∃ r c, inFootprint p r c ∧ inFootprint q r c.

Definition noOverlap (layout : WidgetLayoutConfig) : Prop :=
  ∀ k1 k2 p1 p2, k1 ≠ k2 →
    layout !! k1 = Some p1 → layout !! k2 = Some p2 → ¬ intersects p1 p2.

(** Top-to-bottom, then left-to-right: the order of the scans. *)
Definition scanLe (x y x' y' : Z) : Prop := y < y' ∨ (y = y' ∧ x ≤ x').

(** The first accepted candidate of a row-by-row, column-by-column scan. *)
Fixpoint firstInRows (fit : Z → Z → bool) (xs ys : list Z) : option (Z * Z) :=
  match ys with
  | [] => None
  | y :: ys' =>
      match List.find (λ x, fit x y) xs with
      | Some x => Some (x, y)
      | None => firstInRows fit xs ys'
      end
  end.

(** No cell of the [w]-by-[h] block at column [x], row [y] is marked. *)
Definition allFree (g : Grid) (x y w h : Z) : bool :=
  forallb (λ dy, forallb (λ dx, negb (cell g (y + dy) (x + dx))) (seqZ 0 w))
          (seqZ 0 h).

(** Two grids that read alike. *)
Definition sameCells (g g' : Grid) : Prop := ∀ r c, cell g r c = cell g' r c.

(** The footprint lies within the columns of the grid. *)
Definition withinColumns (x w : Z) : Prop := 0 ≤ x ∧ x + w ≤ GRID_COLS.

(** The invariant of the data model (section 3 of the specification). *)
Definition validPlacement (p : WidgetLayout) : Prop :=
  0 ≤ wx p ∧ 0 ≤ wy p ∧ 1 ≤ ww p ∧ 1 ≤ wh p ∧ wx p + ww p ≤ GRID_COLS.

Module CompactSpec.
Import Compact.

(** The order of processing: ascending y, then ascending x. *)
Definition before (a b : Item) : Prop := compareItems a b ≤ 0.

(** The position a step gives to its item. *)
Definition chosen (st : State) (item : Item) : WidgetLayout :=
  match firstFit (grid st) (ww item.2) (wh item.2) with
  | Some (x, y) => mkLayout x y (ww item.2) (wh item.2)
  | None => mkLayout 0 (2 * Z.of_nat (size (compacted st)))
                     (ww item.2) (wh item.2)
  end.

(** Every cell of a recorded footprint is marked in the grid. *)
Definition footprintsMarked (st : State) : Prop :=
  ∀ k p r c, compacted st !! k = Some p → inFootprint p r c →
    cell (grid st) r c = true.

(** The marked cells are exactly the cells of the recorded footprints. *)
Definition gridExact (st : State) : Prop :=
  ∀ r c, cell (grid st) r c = true
         ↔ ∃ k p, compacted st !! k = Some p ∧ inFootprint p r c.

(** The containment property of section 8 of the specification. *)
Definition contained (q : WidgetLayout) : Prop :=
  0 ≤ wx q ∧ wx q + ww q ≤ GRID_COLS ∧ 0 ≤ wy q.

(** The heights of the items, added up. *)
Definition totalHeight (its : list Item) : Z :=
  foldr (λ it acc, wh it.2 + acc) 0 its.

(** No item of the run falls to the branch after the loops. *)
Fixpoint allScanned (st : State) (its : list Item) : bool :=
  match its with
  | [] => true
  | it :: its' =>
      bool_decide (is_Some (firstFit (grid st) (ww it.2) (wh it.2)))
      && allScanned (step st it) its'
  end.

Definition placedByScan (layouts : WidgetLayoutConfig)
    (visibleKeys : list string) : bool :=
  allScanned initial (items layouts visibleKeys).

(** [q] is a free slot for a widget processed after the items [pre], given
    the placements [out] of those items. *)
Definition freeSlot (out : WidgetLayoutConfig) (pre : list Item)
    (q : WidgetLayout) : Prop :=
  withinColumns (wx q) (ww q) ∧ 0 ≤ wy q ∧
  ∀ it p, it ∈ pre → out !! it.1 = Some p → ¬ intersects q p.

End CompactSpec.

(** Layouts that first-fit packing leaves as they are. *)
Module PackedSpec.
Import Compact CompactSpec.

(** Every visible widget of [layout] sits, within the first hundred rows, at
    the least free slot relative to the widgets that precede it in the
    layout's own ascending (y, x) order. *)
Definition firstFitPacked (layout : WidgetLayoutConfig)
    (visibleKeys : list string) : Prop :=
  ∀ pre it post, items layout visibleKeys = pre ++ it :: post →
    wy it.2 ≤ 99
    ∧ freeSlot layout pre it.2
    ∧ ∀ x y, freeSlot layout pre (mkLayout x y (ww it.2) (wh it.2)) →
             scanLe (wx it.2) (wy it.2) x y.

(** The state of a run over widgets of one height [h]: the recorded
    placements lie in bands of [h] rows, and in every row the marked cells
    from column 0 on form an initial stretch. *)
Definition shelved (h : Z) (st : State) : Prop :=
  (∀ k q, compacted st !! k = Some q →
     wh q = h ∧ 1 ≤ ww q ∧ 0 ≤ wx q ∧ ∃ m, 0 ≤ m ∧ wy q = h * m)
  ∧ (∀ r c c', 0 ≤ c' ≤ c → cell (grid st) r c = true →
       cell (grid st) r c' = true).

End PackedSpec.

Module FindNextSpec.

(** A cell is occupied when some entry of the layout covers it. *)
Definition occupied (layout : WidgetLayoutConfig) (r c : Z) : Prop :=
  ∃ k p, layout !! k = Some p ∧ inFootprint p r c.

(** A [w]-by-[h] widget fits at column [x], row [y] within the row bound. *)
Definition fitsAt (layout : WidgetLayoutConfig) (w h x y : Z) : Prop :=
  withinColumns x w ∧ 0 ≤ y ≤ 99 ∧
  ∀ r c, inFootprint (mkLayout x y w h) r c → ¬ occupied layout r c.

End FindNextSpec.

(** ** Concrete layouts used below *)

Definition exampleLayout : WidgetLayoutConfig :=
  {[ "A" := mkLayout 0 0 3 2; "B" := mkLayout 5 3 3 2 ]}.

(** Two full-width widgets, each a hundred rows tall. *)
Definition tallLayout : WidgetLayoutConfig :=
  {[ "A" := mkLayout 0 0 12 100; "B" := mkLayout 0 100 12 100 ]}.

(** One widget across the whole first two rows (section 8 of the
    specification). *)
Definition barLayout : WidgetLayoutConfig := {[ "A" := mkLayout 0 0 12 2 ]}.

(** One widget across the whole of rows 0..99. *)
Definition wallLayout : WidgetLayoutConfig := {[ "A" := mkLayout 0 0 12 100 ]}.

(** A stand-in for [JSON.parse] that knows one text. *)
Definition parseBraces (s : string) : Loader.Outcome Loader.Json :=
  if bool_decide (s = "{}") then Loader.Return (Loader.JObject [])
  else Loader.Throw "SyntaxError".

(** A wide widget X is processed before the narrow, taller W, yet ends up
    below it. *)
Definition shelfLayout : WidgetLayoutConfig :=
  {[ "A" := mkLayout 0 0 6 1; "X" := mkLayout 0 1 9 1; "W" := mkLayout 0 2 3 2 ]}.

(** ** The dashboard component around the layout engine

    The state of [UserDashboard] that the layout engine feeds, and the
    handlers that change it. *)

Module Dashboard.

(** An entry of [DEFAULT_WIDGETS]. The table is declared in
    [DashboardCustomizeModal], which is not among the sources at hand; the
    functions below take it as a parameter and use the two fields the code
    reads. *)
Record WidgetDef := mkWidgetDef { key : string; visible : bool }.

(** [DEFAULT_WIDGETS.map((w) => w.key)] *)
Definition defaultWidgetKeys (DEFAULT_WIDGETS : list WidgetDef) : list string :=
  key <$> DEFAULT_WIDGETS.

(** [defaultWidgetKeys.filter((k) =>
      DEFAULT_WIDGETS.find((w) => w.key === k)?.visible)] *)
Definition defaultVisibleWidgets (DEFAULT_WIDGETS : list WidgetDef) : list string :=
  List.filter
    (λ k, match List.find (λ w, bool_decide (key w = k)) DEFAULT_WIDGETS with
          | Some w => visible w
          | None => false
          end)
    (defaultWidgetKeys DEFAULT_WIDGETS).

(** The callback of [keys.forEach] in [sanitizeKeys]; the state is the pair
    of the locals [uniq] and [seen]. *)
Definition sanitizeStep (allowed : gset string)
    (st : list string * gset string) (k : string) : list string * gset string :=
  if negb (bool_decide (k ∈ allowed)) then st
  else if bool_decide (k ∈ st.2) then st
  else (st.1 ++ [k], {[k]} ∪ st.2).

(** [sanitizeKeys], a closure over [defaultWidgetKeys]. *)
Definition sanitizeKeys (defaultKeys keys : list string) : list string :=
  (foldl (sanitizeStep (list_to_set defaultKeys)) ([], ∅) keys).1.

(** What the effect on the stored preferences computes and stores in the
    state. *)
Record Loaded := mkLoaded {
  nextVisible : list string;
  nextOrder : list string;
  compactedLayouts : WidgetLayoutConfig
}.

(** The body of the effect that follows a change of [dashboardPrefs].
    [visible_widgets] and [card_order] are [None] when the stored value is
    absent or null (an array, even an empty one, is truthy); the casts
    [as WidgetKey[]] are taken at their word, so this is the effect on
    stored values that are absent or arrays of strings; [DashboardRaw]
    below has the effect on any stored JSON value. [loadedLayouts] is the
    result of [parseWidgetLayouts()] under the cast to
    [WidgetLayoutConfig]. *)
Definition loadPreferences (DEFAULT_WIDGETS : list WidgetDef)
    (visible_widgets card_order : option (list string))
    (loadedLayouts : WidgetLayoutConfig) : Loaded :=
  let defaultKeys := defaultWidgetKeys DEFAULT_WIDGETS in
  let nextVisibleRaw :=
    match visible_widgets with
    | Some v => v
    | None => defaultVisibleWidgets DEFAULT_WIDGETS
    end in
  let nextOrderRaw :=
    match card_order with
    | Some o => o
    | None => defaultKeys
    end in
  let nextVisible := sanitizeKeys defaultKeys nextVisibleRaw in
  let nextOrderBase := sanitizeKeys defaultKeys nextOrderRaw in
  let missingVisible :=
    List.filter (λ k, negb (bool_decide (k ∈ nextOrderBase))) nextVisible in
  let nextOrder := nextOrderBase ++ missingVisible in
  {| nextVisible := nextVisible;
     nextOrder := nextOrder;
     compactedLayouts := Compact.compactLayoutsUtil loadedLayouts nextVisible |}.

(** ** The set of pending changes

    [pendingWidgetChanges] is a JavaScript [Set]: it holds each key at most
    once and [forEach] visits the keys in the order of their insertion. It is
    modelled as the list of its keys in that order. *)

(** [s.has(k)] *)
Definition setHas (s : list string) (k : string) : bool := bool_decide (k ∈ s).

(** [s.delete(k)] *)
Definition setDelete (s : list string) (k : string) : list string :=
  List.filter (λ k', negb (bool_decide (k' = k))) s.

(** [s.add(k)]: a key already present keeps its place. *)
Definition setAdd (s : list string) (k : string) : list string :=
  if setHas s k then s else s ++ [k].

(** The updater of [togglePendingWidget] (and of [handleWidgetRemove], which
    differs by a toast only). *)
Definition togglePending (prev : list string) (k : string) : list string :=
  let next := prev in
  if setHas next k then setDelete next k else setAdd next k.

(** [willWidgetBeVisible] *)
Definition willWidgetBeVisible (visibleWidgets pendingWidgetChanges : list string)
    (k : string) : bool :=
  let isCurrentlyVisible := bool_decide (k ∈ visibleWidgets) in
  let isPending := setHas pendingWidgetChanges k in
  if isPending then negb isCurrentlyVisible else isCurrentlyVisible.

(** ** handleSaveLayout *)

(** The three locals [finalVisible], [finalOrder], [finalLayouts]. *)
Record Final := mkFinal {
  finalVisible : list string;
  finalOrder : list string;
  finalLayouts : WidgetLayoutConfig
}.

(** The callback of [pendingWidgetChanges.forEach]. The test is against the
    [visibleWidgets] of the state, not against [finalVisible]. *)
Definition saveStep (visibleWidgets : list string) (acc : Final) (k : string)
    : Final :=
  let isCurrentlyVisible := bool_decide (k ∈ visibleWidgets) in
  if isCurrentlyVisible then
    {| finalVisible :=
         List.filter (λ w, negb (bool_decide (w = k))) (finalVisible acc);
       finalOrder :=
         List.filter (λ w, negb (bool_decide (w = k))) (finalOrder acc);
       finalLayouts := delete k (finalLayouts acc) |}
  else
    let position := FindNext.findNextGridPosition (finalLayouts acc) 3 2 in
    {| finalVisible := finalVisible acc ++ [k];
       finalOrder :=
         if bool_decide (k ∈ finalOrder acc) then finalOrder acc
         else finalOrder acc ++ [k];
       finalLayouts :=
         <[k := mkLayout (FindNext.px position) (FindNext.py position) 3 2]>
           (finalLayouts acc) |}.

(** The values [handleSaveLayout] stores in the state and hands to the save
    mutation: [finalVisible], [finalOrder] and [compactedLayouts]. *)
Definition savedPreferences (visibleWidgets widgetOrder : list string)
    (widgetLayouts : WidgetLayoutConfig) (pendingWidgetChanges : list string)
    : Final :=
  let acc := foldl (saveStep visibleWidgets)
                   (mkFinal visibleWidgets widgetOrder widgetLayouts)
                   pendingWidgetChanges in
  {| finalVisible := finalVisible acc;
     finalOrder := finalOrder acc;
     finalLayouts :=
       Compact.compactLayoutsUtil (finalLayouts acc) (finalVisible acc) |}.

(** ** The customize mode *)

(** The value of [originalState]. *)
Record Snapshot := mkSnapshot {
  snapVisible : list string;
  snapOrder : list string;
  snapLayouts : WidgetLayoutConfig
}.

(** The pieces of component state the handlers read and write. *)
Record DashState := mkDash {
  visibleWidgets : list string;
  widgetOrder : list string;
  widgetLayouts : WidgetLayoutConfig;
  pendingWidgetChanges : list string;
  originalState : option Snapshot;
  isResizeMode : bool
}.

Definition handleLayoutChange (newLayouts : WidgetLayoutConfig) (st : DashState)
    : DashState :=
  {| visibleWidgets := visibleWidgets st;
     widgetOrder := widgetOrder st;
     widgetLayouts := Compact.compactLayoutsUtil newLayouts (visibleWidgets st);
     pendingWidgetChanges := pendingWidgetChanges st;
     originalState := originalState st;
     isResizeMode := isResizeMode st |}.

Definition togglePendingWidget (k : string) (st : DashState) : DashState :=
  {| visibleWidgets := visibleWidgets st;
     widgetOrder := widgetOrder st;
     widgetLayouts := widgetLayouts st;
     pendingWidgetChanges := togglePending (pendingWidgetChanges st) k;
     originalState := originalState st;
     isResizeMode := isResizeMode st |}.

(** The state change of [handleWidgetRemove] is that of
    [togglePendingWidget]; the toast is left out. *)
Definition handleWidgetRemove (k : string) (st : DashState) : DashState :=
  togglePendingWidget k st.

Definition handleEnterCustomizeMode (st : DashState) : DashState :=
  {| visibleWidgets := visibleWidgets st;
     widgetOrder := widgetOrder st;
     widgetLayouts := widgetLayouts st;
     pendingWidgetChanges := pendingWidgetChanges st;
     originalState :=
       Some (mkSnapshot (visibleWidgets st) (widgetOrder st) (widgetLayouts st));
     isResizeMode := true |}.

Definition handleCancelCustomize (st : DashState) : DashState :=
  match originalState st with
  | Some o =>
      {| visibleWidgets := snapVisible o;
         widgetOrder := snapOrder o;
         widgetLayouts := snapLayouts o;
         pendingWidgetChanges := [];
         originalState := None;
         isResizeMode := false |}
  | None =>
      {| visibleWidgets := visibleWidgets st;
         widgetOrder := widgetOrder st;
         widgetLayouts := widgetLayouts st;
         pendingWidgetChanges := [];
         originalState := None;
         isResizeMode := false |}
  end.

Definition handleSaveLayout (st : DashState) : DashState :=
  let saved := savedPreferences (visibleWidgets st) (widgetOrder st)
                                (widgetLayouts st) (pendingWidgetChanges st) in
  {| visibleWidgets := finalVisible saved;
     widgetOrder := finalOrder saved;
     widgetLayouts := finalLayouts saved;
     pendingWidgetChanges := [];
     originalState := None;
     isResizeMode := false |}.

(** What the user does while customizing, short of saving or cancelling. *)
Inductive Edit :=
  | LayoutChange (newLayouts : WidgetLayoutConfig)
  | WidgetRemove (k : string)
  | TogglePending (k : string).

Definition applyEdit (st : DashState) (e : Edit) : DashState :=
  match e with
  | LayoutChange newLayouts => handleLayoutChange newLayouts st
  | WidgetRemove k => handleWidgetRemove k st
  | TogglePending k => togglePendingWidget k st
  end.

End Dashboard.

(** ** The load effect on the stored values as they are

    [dashboard_preferences.visible_widgets] and [card_order] are JSON
    columns; the effect casts them to [WidgetKey[]] without a check. *)

Module DashboardRaw.
Import Loader Dashboard.

(** The callback of [keys.forEach] on an element of any kind: [allowed] is a
    [Set] of strings, so [allowed.has(k)] is false of an element that is not
    a string, and the callback returns at its first guard. *)
Definition sanitizeStepRaw (allowed : gset string)
    (st : list string * gset string) (k : Json) : list string * gset string :=
  match k with
  | JString s => sanitizeStep allowed st s
  | _ => st
  end.

(** [sanitizeKeys] on the value behind the cast: only an array has
    [forEach]; on any other value the call [keys.forEach(...)] throws. *)
Definition sanitizeKeysRaw (defaultKeys : list string) (keys : Json)
    : Outcome (list string) :=
  match keys with
  | JArray elements =>
      Return (foldl (sanitizeStepRaw (list_to_set defaultKeys)) ([], ∅)
                    elements).1
  | _ => Throw "TypeError: keys.forEach is not a function"
  end.

(** [stored ? stored : fallback] with the fallback an array of keys. *)
Definition storedOr (stored : option Json) (fallback : list string) : Json :=
  if truthy stored then
    match stored with Some j => j | None => JNull end
  else JArray (JString <$> fallback).

(** The body of the effect, from [nextVisibleRaw] to [compactedLayouts].
    [dashboardPrefs] is [None] while the query has no row. [loadedLayouts]
    is the result of [parseWidgetLayouts()] under its cast to
    [WidgetLayoutConfig]. *)
Definition loadEffect (DEFAULT_WIDGETS : list WidgetDef)
    (dashboardPrefs : option DashboardPrefs)
    (loadedLayouts : WidgetLayoutConfig) : Outcome Loaded :=
  let defaultKeys := defaultWidgetKeys DEFAULT_WIDGETS in
  let nextVisibleRaw :=
    storedOr (visible_widgets <$> dashboardPrefs)
             (defaultVisibleWidgets DEFAULT_WIDGETS) in
  let nextOrderRaw := storedOr (card_order <$> dashboardPrefs) defaultKeys in
  bind (sanitizeKeysRaw defaultKeys nextVisibleRaw) (λ nextVisible,
  bind (sanitizeKeysRaw defaultKeys nextOrderRaw) (λ nextOrderBase,
    let missingVisible :=
      List.filter (λ k, negb (bool_decide (k ∈ nextOrderBase))) nextVisible in
    let nextOrder := nextOrderBase ++ missingVisible in
    Return {| nextVisible := nextVisible;
              nextOrder := nextOrder;
              compactedLayouts :=
                Compact.compactLayoutsUtil loadedLayouts nextVisible |})).

(** A stored value the effect can iterate: absent or falsy (the default list
    takes its place), or an array. *)
Definition iterable (stored : option Json) : Prop :=
  truthy stored = false ∨ ∃ elements, stored = Some (JArray elements).

(** The strings among the elements of an array. *)
Definition stringsOf (elements : list Json) : list string :=
  omap (λ j, match j with JString s => Some s | _ => None end) elements.

(** The typed reading of an iterable stored value, as [loadPreferences]
    takes it. *)
Definition typedKeys (stored : option Json) : option (list string) :=
  if truthy stored then
    match stored with
    | Some (JArray elements) => Some (stringsOf elements)
    | _ => None
    end
  else None.

End DashboardRaw.

(** ** The summary queries of the dashboard *)

Module Queries.

(** The column of a row of [contacts] that the summary reads. *)
Record Contact := mkContact { contact_source : option string }.

(** The object [bySource] together with [total]. *)
Record ContactSummary := mkContactSummary {
  total : nat;
  website : nat;
  referral : nat;
  linkedin : nat;
  other : nat
}.

(** The columns of a row of [deals] that the summary reads. *)
Record Deal := mkDeal {
  stage : option string;
  created_by : option string;
  lead_owner : option string
}.

(** The counts of the deals summary. *)
Record DealSummary := mkDealSummary {
  dealsTotal : nat;
  active : nat;
  won : nat;
  lost : nat;
  rfq : nat;
  offered : nat
}.

Section Summaries.

(** [String.prototype.toLowerCase] belongs to the platform. *)
Variable toLowerCase : string → string.

(** [c.contact_source?.toLowerCase() === name] *)
Definition sourceIs (name : string) (c : Contact) : bool :=
  match contact_source c with
  | Some s => bool_decide (toLowerCase s = name)
  | None => false
  end.

(** [c.contact_source?.toLowerCase() || ''] *)
Definition sourceOrEmpty (c : Contact) : string :=
  match contact_source c with
  | Some s => if bool_decide (toLowerCase s = EmptyString) then EmptyString
              else toLowerCase s
  | None => EmptyString
  end.

(** The value the contacts query returns, from [data || []]. *)
Definition contactsSummary (contacts : list Contact) : ContactSummary :=
  {| total := length contacts;
     website := length (List.filter (sourceIs "website") contacts);
     referral := length (List.filter (sourceIs "referral") contacts);
     linkedin := length (List.filter (sourceIs "linkedin") contacts);
     other :=
       length (List.filter
                 (λ c, negb (bool_decide
                               (sourceOrEmpty c ∈ ["website"; "referral"; "linkedin"])))
                 contacts) |}.

End Summaries.

(** [d.stage === name] *)
Definition stageIs (name : string) (d : Deal) : bool :=
  bool_decide (stage d = Some name).

(** [!['Won', 'Lost', 'Dropped'].includes(d.stage)] *)
Definition isActive (d : Deal) : bool :=
  negb (bool_decide (stage d ∈ [Some "Won"; Some "Lost"; Some "Dropped"])).

(** The counts the deals query returns for the user [userId]. *)
Definition dealsSummary (userId : string) (data : list Deal) : DealSummary :=
  let userDeals :=
    List.filter (λ d, bool_decide (created_by d = Some userId)
                      || bool_decide (lead_owner d = Some userId)) data in
  let activeDeals := List.filter isActive userDeals in
  let wonDeals := List.filter (stageIs "Won") userDeals in
  {| dealsTotal := length userDeals;
     active := length activeDeals;
     won := length wonDeals;
     lost := length (List.filter (stageIs "Lost") userDeals);
     rfq := length (List.filter (stageIs "RFQ") userDeals);
     offered := length (List.filter (stageIs "Offered") userDeals) |}.

End Queries.

(** * Properties *)

(** ** The grid *)

Section GridFacts.
Implicit Types (g : Grid) (r c : Z).

Lemma new_row_false c : default false (new_row !! c) = false.
Proof.
  destruct (new_row !! c) as [b|] eqn:E; [|done].
  apply elem_of_list_to_map_2 in E.
  apply list_elem_of_fmap in E as (c' & [= _ ->] & _). done.
Qed.

Lemma cell_ensure_row g r r' c : cell (ensure_row g r) r' c = cell g r' c.
Proof.
  unfold ensure_row, cell.
  destruct (g !! r) as [row|] eqn:E; [done|].
  destruct (decide (r = r')) as [<-|Hne].
  - rewrite lookup_insert_eq, E. apply new_row_false.
  - by rewrite lookup_insert_ne.
Qed.

Lemma ensure_row_is_Some g r : is_Some (ensure_row g r !! r).
Proof.
  unfold ensure_row. destruct (g !! r) eqn:E; [by rewrite E|].
  rewrite lookup_insert_eq. eauto.
Qed.

Lemma set_cell_is_Some g r c r' :
  is_Some (g !! r') → is_Some (set_cell g r c !! r').
Proof.
  intros H. unfold set_cell. destruct (g !! r) eqn:E; [|done].
  destruct (decide (r = r')) as [<-|Hne].
  - rewrite lookup_insert_eq. eauto.
  - by rewrite lookup_insert_ne.
Qed.

Lemma cell_set_cell g r c r' c' :
  is_Some (g !! r) →
  cell (set_cell g r c) r' c' = true ↔ (r = r' ∧ c = c') ∨ cell g r' c' = true.
Proof.
  intros [row E]. unfold set_cell, cell. rewrite E.
  destruct (decide (r = r')) as [<-|Hne].
  - rewrite lookup_insert_eq, E.
    destruct (decide (c = c')) as [<-|Hc].
    + rewrite lookup_insert_eq. simpl. tauto.
    + rewrite lookup_insert_ne by done. split; [tauto|].
      intros [[_ ?]|?]; [done|tauto].
  - rewrite lookup_insert_ne by done. split; [tauto|].
    intros [[? _]|?]; [done|tauto].
Qed.

(** Setting the cells [cols] of an existing row. *)
Lemma cell_set_cols (C : Z → Z) cols g r r' c' :
  is_Some (g !! r) →
  cell (foldl (λ g' j, set_cell g' r (C j)) g cols) r' c' = true
  ↔ (r = r' ∧ ∃ j, j ∈ cols ∧ c' = C j) ∨ cell g r' c' = true.
Proof.
  revert g. induction cols as [|j cols IH]; intros g Hrow; simpl.
  - split; [auto|]. intros [(_ & j & Hj & _)|]; [|done]. by apply elem_of_nil in Hj.
  - rewrite IH by by apply set_cell_is_Some.
    rewrite cell_set_cell by done. split.
    + intros [(Hr & j' & Hj' & Hc)|[[Hr Hc]|H]]; [left|left|by right].
      * split; [done|]. exists j'. split; [by right|done].
      * split; [done|]. exists j. split; [by left|done].
    + intros [(Hr & j' & Hj' & Hc)|H]; [|by right; right].
      apply elem_of_cons in Hj' as [->|Hj']; [right; left; done|].
      left. eauto.
Qed.

(** The doubly nested marking loop shared by [occupy] and the grid
    construction of [findNextGridPosition]. *)
Lemma cell_mark_rows (R C : Z → Z) rows cols g r c :
  cell (foldl (λ g i, foldl (λ g' j, set_cell g' (R i) (C j))
                            (ensure_row g (R i)) cols) g rows) r c = true
  ↔ (∃ i j, i ∈ rows ∧ j ∈ cols ∧ r = R i ∧ c = C j) ∨ cell g r c = true.
Proof.
  revert g. induction rows as [|i rows IH]; intros g; simpl.
  - split; [auto|]. intros [(i & _ & Hi & _)|]; [|done]. by apply elem_of_nil in Hi.
  - rewrite IH, cell_set_cols by apply ensure_row_is_Some.
    rewrite cell_ensure_row. split.
    + intros [(i' & j & Hi' & Hj & Hr & Hc)|[(Hr & j & Hj & Hc)|H]].
      * left. exists i', j. split; [by right|done].
      * left. exists i, j. split; [by left|done].
      * by right.
    + intros [(i' & j & Hi' & Hj & Hr & Hc)|H]; [|by right; right].
      apply elem_of_cons in Hi' as [->|Hi'].
      * right; left. eauto.
      * left. eauto 6.
Qed.

Lemma cell_empty r c : cell ∅ r c = false.
Proof. unfold cell. by rewrite lookup_empty. Qed.

Lemma allFree_spec g x y w h :
  allFree g x y w h = true
  ↔ ∀ r c, inFootprint (mkLayout x y w h) r c → cell g r c = false.
Proof.
  unfold allFree, inFootprint; simpl. rewrite forallb_forall. split.
  - intros H r c [Hr Hc].
    specialize (H (r - y)). rewrite forallb_forall in H.
    assert (In (r - y) (seqZ 0 h)) as Hin
      by (apply list_elem_of_In, elem_of_seqZ; lia).
    specialize (H Hin (c - x)).
    assert (In (c - x) (seqZ 0 w)) as Hin'
      by (apply list_elem_of_In, elem_of_seqZ; lia).
    specialize (H Hin'). apply negb_true_iff in H.
    replace (y + (r - y)) with r in H by lia.
    replace (x + (c - x)) with c in H by lia. done.
  - intros H dy Hdy. apply forallb_forall. intros dx Hdx.
    apply list_elem_of_In, elem_of_seqZ in Hdy, Hdx.
    apply negb_true_iff, H. lia.
Qed.

End GridFacts.

(** ** Scans over integer ranges *)

Section Scans.

Lemma find_seqZ_Some (f : Z → bool) m n x :
  List.find f (seqZ m n) = Some x →
  m ≤ x < m + n ∧ f x = true ∧ ∀ z, m ≤ z < x → f z = false.
Proof.
  remember (Z.to_nat n) as k eqn:Hk. revert m n Hk.
  induction k as [|k IH]; intros m n Hk.
  - rewrite seqZ_nil by lia. discriminate.
  - rewrite seqZ_cons by lia. simpl.
    destruct (f m) eqn:Hm.
    + intros [= <-]. repeat split; [lia|lia|done|intros; lia].
    + intros H. apply IH in H as (Hx & Hfx & Hlt); [|lia].
      repeat split; [lia|lia|done|].
      intros z Hz. destruct (decide (z = m)) as [->|]; [done|].
      apply Hlt. lia.
Qed.

Lemma find_seqZ_None (f : Z → bool) m n :
  List.find f (seqZ m n) = None → ∀ z, m ≤ z < m + n → f z = false.
Proof.
  intros H z Hz. eapply find_none in H; [done|].
  apply list_elem_of_In, elem_of_seqZ. lia.
Qed.

Lemma firstInRows_Some fit xn m n x y :
  firstInRows fit (seqZ 0 xn) (seqZ m n) = Some (x, y) →
  0 ≤ x < xn ∧ m ≤ y < m + n ∧ fit x y = true ∧
  ∀ x' y', 0 ≤ x' < xn → m ≤ y' → fit x' y' = true → scanLe x y x' y'.
Proof.
  remember (Z.to_nat n) as k eqn:Hk. revert m n Hk.
  induction k as [|k IH]; intros m n Hk.
  - rewrite (seqZ_nil m n) by lia. discriminate.
  - rewrite (seqZ_cons m n) by lia. simpl.
    destruct (List.find (λ x0, fit x0 m) (seqZ 0 xn)) as [x0|] eqn:Hrow.
    + intros [= -> ->]. apply find_seqZ_Some in Hrow as (Hx & Hfit & Hmin).
      repeat split; [lia..|done|].
      intros x' y' Hx' Hy' Hfit'. unfold scanLe.
      destruct (decide (y' = y)) as [->|]; [|lia].
      right. split; [done|].
      destruct (decide (x ≤ x')); [done|].
      rewrite Hmin in Hfit' by lia. done.
    + intros H. apply IH in H as (Hx & Hy & Hfit & Hmin); [|lia].
      repeat split; [lia..|done|].
      intros x' y' Hx' Hy' Hfit'.
      destruct (decide (y' = m)) as [->|].
      * eapply find_seqZ_None in Hrow; [|exact Hx'].
        simpl in Hrow. congruence.
      * apply Hmin; [done|lia|done].
Qed.

Lemma firstInRows_None fit xn m n :
  firstInRows fit (seqZ 0 xn) (seqZ m n) = None →
  ∀ x' y', 0 ≤ x' < xn → m ≤ y' < m + n → fit x' y' = false.
Proof.
  remember (Z.to_nat n) as k eqn:Hk. revert m n Hk.
  induction k as [|k IH]; intros m n Hk.
  - intros _ x' y' _ Hy'. lia.
  - rewrite (seqZ_cons m n) by lia. simpl.
    destruct (List.find (λ x0, fit x0 m) (seqZ 0 xn)) as [x0|] eqn:Hrow; [done|].
    intros H x' y' Hx' Hy'.
    destruct (decide (y' = m)) as [->|].
    + eapply find_seqZ_None in Hrow; [|exact Hx']. done.
    + eapply IH; [|exact H|done|lia]. lia.
Qed.

End Scans.

(** ** compactLayoutsUtil: the closures and one step *)

Module CompactFacts.
Import Compact CompactSpec.
Implicit Types (g : Grid).

Lemma occupy_spec g x y w h r c :
  cell (occupy g x y w h) r c = true
  ↔ inFootprint (mkLayout x y w h) r c ∨ cell g r c = true.
Proof.
  unfold occupy.
  rewrite (cell_mark_rows (λ dy, y + dy) (λ dx, x + dx)).
  unfold inFootprint; simpl. split.
  - intros [(i & j & Hi & Hj & -> & ->)|H]; [left|by right].
    apply elem_of_seqZ in Hi, Hj. lia.
  - intros [[Hr Hc]|H]; [left|by right].
    exists (r - y), (c - x). rewrite !elem_of_seqZ. lia.
Qed.

Lemma canPlace_spec g x y w h :
  canPlace g x y w h = true
  ↔ withinColumns x w ∧
    ∀ r c, inFootprint (mkLayout x y w h) r c → cell g r c = false.
Proof.
  rewrite <- allFree_spec.
  unfold canPlace, withinColumns, GRID_COLS.
  change (forallb _ (seqZ 0 h)) with (allFree g x y w h).
  destruct (x <? 0) eqn:Hx0; simpl.
  { apply Z.ltb_lt in Hx0. split; [done|lia]. }
  apply Z.ltb_ge in Hx0.
  destruct (x + w >? 12) eqn:Hxw.
  { apply Z.gtb_lt in Hxw. split; [done|lia]. }
  rewrite Z.gtb_ltb in Hxw. apply Z.ltb_ge in Hxw. tauto.
Qed.

Lemma scanRows_firstInRows g w h ys :
  scanRows g w h ys
  = firstInRows (λ x y, canPlace g x y w h) (seqZ 0 (GRID_COLS - w + 1)) ys.
Proof. induction ys as [|y ys IH]; simpl; [done|]. by rewrite IH. Qed.

(** What the scan returns when it accepts a candidate. *)
Lemma firstFit_Some g w h x y :
  firstFit g w h = Some (x, y) →
  0 ≤ y ≤ 99 ∧ canPlace g x y w h = true ∧
  ∀ x' y', 0 ≤ y' → canPlace g x' y' w h = true → scanLe x y x' y'.
Proof.
  unfold firstFit. rewrite scanRows_firstInRows. intros H.
  apply firstInRows_Some in H as (Hx & Hy & Hfit & Hmin).
  repeat split; [lia..|done|].
  intros x' y' Hy' Hfit'. apply Hmin; [|done..].
  apply canPlace_spec in Hfit' as [[? ?] _]. unfold GRID_COLS in *. lia.
Qed.

(** The scan gives up only if no candidate of the first hundred rows is
    acceptable. *)
Lemma firstFit_None g w h :
  firstFit g w h = None →
  ∀ x y, 0 ≤ y ≤ 99 → canPlace g x y w h = false.
Proof.
  unfold firstFit. rewrite scanRows_firstInRows. intros H x y Hy.
  destruct (canPlace g x y w h) eqn:Hfit; [|done].
  rewrite <- Hfit. eapply (firstInRows_None _ _ _ _ H); [|lia].
  apply canPlace_spec in Hfit as [[? ?] _]. unfold GRID_COLS in *. lia.
Qed.

Lemma step_chosen st item :
  step st item
  = {| compacted := <[item.1 := chosen st item]> (compacted st);
       grid := occupy (grid st) (wx (chosen st item)) (wy (chosen st item))
                      (ww item.2) (wh item.2) |}.
Proof.
  unfold step, chosen.
  destruct (firstFit _ _ _) as [[x y]|]; done.
Qed.

Lemma chosen_size st item :
  ww (chosen st item) = ww item.2 ∧ wh (chosen st item) = wh item.2.
Proof. unfold chosen. destruct (firstFit _ _ _) as [[x y]|]; done. Qed.

End CompactFacts.

(** ** compactLayoutsUtil: the item list *)

Module ItemFacts.
Import Compact CompactSpec.

Lemma insertItem_Permutation a l : insertItem a l ≡ₚ a :: l.
Proof.
  induction l as [|b l IH]; simpl; [done|].
  case_decide; [done|]. rewrite IH. apply Permutation_swap.
Qed.

Lemma sortItems_Permutation l : sortItems l ≡ₚ l.
Proof.
  induction l as [|a l IH]; simpl; [done|].
  rewrite insertItem_Permutation. by f_equiv.
Qed.

Lemma before_scanLe a b :
  before a b ↔ scanLe (wx a.2) (wy a.2) (wx b.2) (wy b.2).
Proof. unfold before, compareItems, scanLe. case_decide; lia. Qed.

Lemma insertItem_Sorted a l : Sorted before l → Sorted before (insertItem a l).
Proof.
  induction l as [|b l IH]; simpl; intros Hs.
  - by repeat constructor.
  - case_decide as Hab.
    + constructor; [done|]. by constructor.
    + apply Sorted_inv in Hs as [Hs Hhd]. constructor; [by apply IH|].
      assert (before b a) as Hba.
      { apply before_scanLe. unfold before, compareItems, scanLe in *.
        case_decide; lia. }
      destruct l as [|c l]; simpl; [by constructor|].
      case_decide; constructor; [done|].
      by apply HdRel_inv in Hhd.
Qed.

Lemma sortItems_Sorted l : Sorted before (sortItems l).
Proof.
  induction l as [|a l IH]; simpl; [constructor|]. by apply insertItem_Sorted.
Qed.

Lemma elem_of_unsortedItems layouts visibleKeys k p :
  (k, p) ∈ unsortedItems layouts visibleKeys
  ↔ k ∈ visibleKeys ∧ layouts !! k = Some p.
Proof.
  unfold unsortedItems. rewrite list_elem_of_omap. split.
  - intros (k' & Hk' & Heq). destruct (layouts !! k') as [p'|] eqn:E; [|done].
    simpl in Heq. by injection Heq as <- <-.
  - intros [Hk E]. exists k. by rewrite E.
Qed.

Lemma elem_of_items layouts visibleKeys k p :
  (k, p) ∈ items layouts visibleKeys
  ↔ k ∈ visibleKeys ∧ layouts !! k = Some p.
Proof.
  unfold items. rewrite sortItems_Permutation. apply elem_of_unsortedItems.
Qed.

Lemma elem_of_items_keys layouts visibleKeys k :
  k ∈ (items layouts visibleKeys).*1
  ↔ k ∈ visibleKeys ∧ is_Some (layouts !! k).
Proof.
  rewrite list_elem_of_fmap. split.
  - intros ([k' p] & -> & Hin). apply elem_of_items in Hin as [? ?]. eauto.
  - intros [Hk [p Hp]]. exists (k, p). split; [done|]. by apply elem_of_items.
Qed.

Lemma unsortedItems_keys layouts visibleKeys :
  (unsortedItems layouts visibleKeys).*1
  = filter (λ k, is_Some (layouts !! k)) visibleKeys.
Proof.
  unfold unsortedItems.
  induction visibleKeys as [|k ks IH]; simpl; [done|].
  rewrite filter_cons, <- IH. case_decide as Hk.
  - destruct Hk as [p ->]. done.
  - destruct (layouts !! k) as [p|] eqn:E; [|done].
    destruct Hk. eauto.
Qed.

Lemma items_keys_NoDup layouts visibleKeys :
  NoDup visibleKeys → NoDup (items layouts visibleKeys).*1.
Proof.
  intros Hnd. unfold items. rewrite sortItems_Permutation.
  rewrite unsortedItems_keys. by apply NoDup_filter.
Qed.

(** The widgets are processed in ascending (y, x) order. *)
Lemma items_Sorted layouts visibleKeys :
  Sorted before (items layouts visibleKeys).
Proof. apply sortItems_Sorted. Qed.

End ItemFacts.

(** ** compactLayoutsUtil: the run over the items *)

Module RunFacts.
Import Compact CompactSpec CompactFacts ItemFacts.

Lemma run_lookup st its k q :
  compacted (foldl step st its) !! k = Some q →
  compacted st !! k = Some q
  ∨ ∃ it, it ∈ its ∧ it.1 = k ∧ ww q = ww it.2 ∧ wh q = wh it.2.
Proof.
  revert st. induction its as [|it its IH]; intros st; simpl; [by left|].
  intros H. apply IH in H as [H|(it' & Hin & Hk & Hw)].
  - rewrite step_chosen in H; simpl in H.
    destruct (decide (it.1 = k)) as [Hk|Hk].
    + rewrite Hk, lookup_insert_eq in H. injection H as <-.
      right. exists it. split; [by left|]. split; [done|]. apply chosen_size.
    + rewrite lookup_insert_ne in H by done. by left.
  - right. exists it'. split; [by right|done].
Qed.

Lemma run_dom st its :
  dom (compacted (foldl step st its))
  = dom (compacted st) ∪ list_to_set its.*1.
Proof.
  revert st. induction its as [|it its IH]; intros st; simpl.
  - set_solver.
  - rewrite IH, step_chosen; simpl. rewrite dom_insert_L. set_solver.
Qed.

Lemma run_lookup_other st its k :
  k ∉ its.*1 → compacted (foldl step st its) !! k = compacted st !! k.
Proof.
  revert st. induction its as [|it its IH]; intros st Hk; simpl; [done|].
  rewrite fmap_cons, not_elem_of_cons in Hk. destruct Hk as [Hne Hk].
  rewrite IH by done. rewrite step_chosen; simpl.
  by rewrite lookup_insert_ne.
Qed.

(** A property of the state that every step keeps holds at the end. *)
Lemma run_invariant (P : State → Prop) (Q : Item → Prop) st its :
  (∀ st it, P st → Q it → P (step st it)) →
  P st → Forall Q its → P (foldl step st its).
Proof.
  intros Hstep. revert st. induction its as [|it its IH]; intros st HP HQ; simpl.
  - done.
  - apply Forall_cons in HQ as [Hit HQ]. apply IH; [|done]. by apply Hstep.
Qed.

(** A step looks at the key, the width and the height of its item only. *)
Lemma step_ext st k p1 p2 :
  ww p1 = ww p2 → wh p1 = wh p2 → step st (k, p1) = step st (k, p2).
Proof. intros Hw Hh. unfold step; simpl. by rewrite Hw, Hh. Qed.

Lemma run_ext st (l1 l2 : list Item) :
  l1.*1 = l2.*1 →
  (∀ k p1 p2, (k, p1) ∈ l1 → (k, p2) ∈ l2 → ww p1 = ww p2 ∧ wh p1 = wh p2) →
  foldl step st l1 = foldl step st l2.
Proof.
  revert st l2. induction l1 as [|[k p1] l1 IH]; intros st [|[k' p2] l2] Hk Hsz;
    simpl in *; try done.
  injection Hk as <- Hk.
  destruct (Hsz k p1 p2) as [Hw Hh]; [by left..|].
  rewrite (step_ext st k p1 p2) by done.
  apply IH; [done|]. intros k0 q1 q2 H1 H2. apply (Hsz k0); by right.
Qed.

Lemma run_keeps_size layouts visibleKeys k q :
  compactLayoutsUtil layouts visibleKeys !! k = Some q →
  ∃ p, layouts !! k = Some p ∧ ww q = ww p ∧ wh q = wh p.
Proof.
  unfold compactLayoutsUtil. intros H.
  apply run_lookup in H as [H|([k' p] & Hin & Hk & Hw & Hh)]; [done|].
  simpl in *. subst k'. apply elem_of_items in Hin as [_ Hp]. eauto.
Qed.

Lemma chosen_eta st it :
  mkLayout (wx (chosen st it)) (wy (chosen st it)) (ww it.2) (wh it.2)
  = chosen st it.
Proof. unfold chosen. destruct (firstFit _ _ _) as [[x y]|]; done. Qed.

Lemma chosen_contained st it : ww it.2 ≤ GRID_COLS → contained (chosen st it).
Proof.
  intros Hw. unfold chosen, contained.
  destruct (firstFit _ _ _) as [[x y]|] eqn:E; simpl.
  - apply firstFit_Some in E as (Hy & Hfit & _).
    apply canPlace_spec in Hfit as [[? ?] _]. lia.
  - lia.
Qed.

Lemma step_contained st it :
  (∀ k q, compacted st !! k = Some q → contained q) →
  ww it.2 ≤ GRID_COLS →
  ∀ k q, compacted (step st it) !! k = Some q → contained q.
Proof.
  intros Hst Hw k q. rewrite step_chosen; simpl.
  destruct (decide (it.1 = k)) as [<-|Hne].
  - rewrite lookup_insert_eq. intros [= <-]. by apply chosen_contained.
  - rewrite lookup_insert_ne by done. apply Hst.
Qed.

(** A step that places its item by the scan keeps the footprints marked and
    pairwise disjoint. *)
Lemma step_scanned_noOverlap st it :
  is_Some (firstFit (grid st) (ww it.2) (wh it.2)) →
  footprintsMarked st → noOverlap (compacted st) →
  footprintsMarked (step st it) ∧ noOverlap (compacted (step st it)).
Proof.
  intros [[x y] E] Hm Hno. unfold step. rewrite E; simpl.
  apply firstFit_Some in E as (_ & Hfit & _).
  apply canPlace_spec in Hfit as [_ Hfree].
  assert (∀ k p, k ≠ it.1 → compacted st !! k = Some p →
            ¬ intersects (mkLayout x y (ww it.2) (wh it.2)) p) as Hnew.
  { intros k p _ Hp (r & c & Hin & Hin').
    apply Hfree in Hin. rewrite (Hm k p r c Hp Hin') in Hin. done. }
  split.
  - intros k p r c; simpl. rewrite occupy_spec.
    destruct (decide (it.1 = k)) as [<-|Hne].
    + rewrite lookup_insert_eq. intros [= <-] Hin. by left.
    + rewrite lookup_insert_ne by done. intros Hp Hin. right. by eapply Hm.
  - intros k1 k2 p1 p2 Hne.
    destruct (decide (it.1 = k1)) as [<-|Hne1];
      destruct (decide (it.1 = k2)) as [<-|Hne2]; [done|..].
    + rewrite lookup_insert_eq, lookup_insert_ne by done.
      intros [= <-] Hp2. by eapply Hnew.
    + rewrite lookup_insert_eq, lookup_insert_ne by done.
      intros Hp1 [= <-] (r & c & Hin & Hin').
      eapply Hnew; [|exact Hp1|]; [done|]. by exists r, c.
    + rewrite !lookup_insert_ne by done. by apply Hno.
Qed.

Lemma run_scanned_noOverlap st its :
  allScanned st its = true →
  footprintsMarked st → noOverlap (compacted st) →
  footprintsMarked (foldl step st its)
  ∧ noOverlap (compacted (foldl step st its)).
Proof.
  revert st. induction its as [|it its IH]; intros st Hall Hm Hno; simpl in *.
  - done.
  - apply andb_true_iff in Hall as [Hfit Hall].
    apply bool_decide_eq_true in Hfit.
    destruct (step_scanned_noOverlap st it Hfit Hm Hno) as [Hm' Hno'].
    by apply IH.
Qed.

Lemma totalHeight_nonneg its :
  Forall (λ it : Item, ww it.2 ≤ GRID_COLS ∧ 1 ≤ wh it.2) its →
  0 ≤ totalHeight its.
Proof.
  induction 1 as [|it its [_ Hh] _ IH]; simpl; [done|]. lia.
Qed.

(** While all marked cells lie above row [B] and the heights still to come
    fit below it within the hundred rows, the scan succeeds for every
    item: row [B], column 0 is always acceptable. *)
Lemma allScanned_bounded st its B :
  0 ≤ B → (∀ r c, cell (grid st) r c = true → r < B) →
  Forall (λ it : Item, ww it.2 ≤ GRID_COLS ∧ 1 ≤ wh it.2) its →
  B + totalHeight its ≤ 100 →
  allScanned st its = true.
Proof.
  revert st B. induction its as [|it its IH]; intros st B HB Hcells Hits Hsum;
    simpl in *; [done|].
  apply Forall_cons in Hits as [[Hw Hh] Hits].
  pose proof (totalHeight_nonneg its Hits) as Hnn.
  assert (canPlace (grid st) 0 B (ww it.2) (wh it.2) = true) as Hfit.
  { apply canPlace_spec. split; [unfold withinColumns; lia|].
    intros r c [Hr _]. simpl in Hr.
    destruct (cell (grid st) r c) eqn:E; [|done].
    apply Hcells in E. lia. }
  destruct (firstFit (grid st) (ww it.2) (wh it.2)) as [[x y]|] eqn:E.
  2:{ rewrite (firstFit_None _ _ _ E) in Hfit by lia. done. }
  apply andb_true_iff. split; [apply bool_decide_eq_true; eauto|].
  apply firstFit_Some in E as Hscan. destruct Hscan as (Hy & _ & Hmin).
  apply (IH _ (B + wh it.2)); [lia| |done|lia].
  intros r c. unfold step. rewrite E. simpl. rewrite occupy_spec.
  intros [[Hr _]|Hold].
  - simpl in Hr. specialize (Hmin 0 B HB Hfit). unfold scanLe in Hmin. lia.
  - apply Hcells in Hold. lia.
Qed.

(** Input conditions under which no widget falls back: widths of at most
    12, heights of at least 1, and at most a hundred rows in total. *)
Lemma placedByScan_bounded layouts visibleKeys :
  (∀ k p, k ∈ visibleKeys → layouts !! k = Some p →
     ww p ≤ GRID_COLS ∧ 1 ≤ wh p) →
  totalHeight (items layouts visibleKeys) ≤ 100 →
  placedByScan layouts visibleKeys = true.
Proof.
  intros Hsz Hsum. unfold placedByScan.
  apply (allScanned_bounded _ _ 0); [done| | |lia].
  - intros r c. simpl. by rewrite cell_empty.
  - apply Forall_forall. intros [k p] Hin.
    apply elem_of_items in Hin as [Hk Hp]. by apply (Hsz k).
Qed.

(** As long as every key is processed once, the grid holds the recorded
    footprints and nothing else. *)
Lemma step_gridExact st it :
  it.1 ∉ dom (compacted st) → gridExact st → gridExact (step st it).
Proof.
  intros Hfresh Hex r c. rewrite step_chosen; simpl.
  rewrite occupy_spec, chosen_eta, (Hex r c). split.
  - intros [Hin|(k & p & Hp & Hin)].
    + exists it.1, (chosen st it). by rewrite lookup_insert_eq.
    + exists k, p. split; [|done]. rewrite lookup_insert_ne; [done|].
      intros <-. apply Hfresh, elem_of_dom. eauto.
  - intros (k & p & Hp & Hin).
    destruct (decide (it.1 = k)) as [<-|Hne].
    + rewrite lookup_insert_eq in Hp. injection Hp as <-. by left.
    + rewrite lookup_insert_ne in Hp by done. right. eauto.
Qed.

Lemma run_gridExact st its :
  NoDup its.*1 → (∀ k, k ∈ its.*1 → k ∉ dom (compacted st)) →
  gridExact st → gridExact (foldl step st its).
Proof.
  revert st. induction its as [|it its IH]; intros st Hnd Hfresh Hex; simpl.
  - done.
  - rewrite fmap_cons in Hnd. apply NoDup_cons in Hnd as [Hit Hnd].
    apply IH; [done| |].
    + intros k Hk. rewrite step_chosen; simpl. rewrite dom_insert_L.
      apply not_elem_of_union. split.
      * apply not_elem_of_singleton. by intros ->.
      * apply Hfresh. rewrite fmap_cons. by right.
    + apply step_gridExact; [|done]. apply Hfresh. rewrite fmap_cons. by left.
Qed.

Lemma initial_gridExact : gridExact initial.
Proof.
  intros r c. simpl. rewrite cell_empty. split; [done|].
  intros (k & p & Hp & _). by rewrite lookup_empty in Hp.
Qed.

(** In a run over distinct keys, a slot is free with respect to the widgets
    already placed exactly when [canPlace] accepts it. *)
Lemma freeSlot_canPlace (pre : list Item) (it : Item) (post : list Item) q :
  NoDup (pre ++ it :: post).*1 →
  let st := foldl step initial pre in
  let out := compacted (foldl step initial (pre ++ it :: post)) in
  freeSlot out pre q
  ↔ 0 ≤ wy q ∧ canPlace (grid st) (wx q) (wy q) (ww q) (wh q) = true.
Proof.
  intros Hnd st out.
  rewrite fmap_app, fmap_cons in Hnd.
  apply NoDup_app in Hnd as (Hpre & Hdisj & Hrest).
  assert (gridExact st) as Hex.
  { apply run_gridExact; [done| |apply initial_gridExact].
    intros k _. simpl. rewrite dom_empty_L. apply not_elem_of_empty. }
  assert (∀ k, k ∈ pre.*1 → out !! k = compacted st !! k) as Hsame.
  { intros k Hk. unfold out. rewrite foldl_app. fold st.
    apply run_lookup_other. rewrite fmap_cons. by apply Hdisj. }
  assert (∀ k, is_Some (compacted st !! k) → k ∈ pre.*1) as Hdom.
  { intros k Hk. apply elem_of_dom in Hk. unfold st in Hk.
    rewrite run_dom in Hk. simpl in Hk.
    rewrite dom_empty_L, (left_id_L ∅ (∪)) in Hk.
    by apply elem_of_list_to_set in Hk. }
  rewrite canPlace_spec. destruct q as [x y w h]; simpl.
  unfold freeSlot; simpl. split.
  - intros (Hcols & Hy & Hfree). split; [done|]. split; [done|].
    intros r c Hin. destruct (cell (grid st) r c) eqn:Hcell; [|done].
    apply Hex in Hcell as (k & p & Hp & Hin').
    assert (k ∈ pre.*1) as Hk by (apply Hdom; eauto).
    apply list_elem_of_fmap in Hk as (it' & -> & Hit').
    destruct (Hfree it' p Hit'); [by rewrite Hsame by by apply list_elem_of_fmap_2|].
    by exists r, c.
  - intros (Hy & Hcols & Hfree). split; [done|]. split; [done|].
    intros it' p Hit' Hp (r & c & Hin & Hin').
    rewrite Hsame in Hp by by apply list_elem_of_fmap_2.
    apply Hfree in Hin.
    assert (cell (grid st) r c = true) as Hcell by (apply Hex; eauto).
    congruence.
Qed.

Lemma count_key_once {A} (l : list (string * A)) k :
  NoDup l.*1 → k ∈ l.*1 → length (filter (λ kp, kp.1 = k) l) = 1%nat.
Proof.
  induction l as [|[k' a] l IH]; simpl; intros Hnd Hin.
  - by apply elem_of_nil in Hin.
  - apply NoDup_cons in Hnd as [Hk' Hnd]. rewrite filter_cons; simpl.
    case_decide as Hk.
    + subst k'. simpl. f_equal.
      clear IH Hin. induction l as [|[k'' a'] l IH]; [done|].
      simpl in *. rewrite not_elem_of_cons in Hk'. destruct Hk' as [Hne Hk'].
      apply NoDup_cons in Hnd as [_ Hnd].
      rewrite filter_cons; simpl. rewrite decide_False by done. by apply IH.
    + apply elem_of_cons in Hin as [->|Hin]; [done|]. by apply IH.
Qed.

End RunFacts.

(** * The stated properties of compactLayoutsUtil *)

Module CompactClaims.
Import Compact CompactSpec CompactFacts ItemFacts RunFacts.

(** C4. The identifiers of the output of [compactLayoutsUtil] are exactly
    those that occur both in [visibleKeys] and in the input layout: one
    outside [visibleKeys] is absent, one in [visibleKeys] without an input
    placement is absent, and one present in both is bound by exactly one
    entry of the output mapping. *)
Theorem compact_domain (layouts : WidgetLayoutConfig) (visibleKeys : list string) :
  let out := compactLayoutsUtil layouts visibleKeys in
  dom out = list_to_set visibleKeys ∩ dom layouts
  ∧ (∀ k, k ∉ visibleKeys → out !! k = None)
  ∧ (∀ k, layouts !! k = None → out !! k = None)
  ∧ (∀ k, k ∈ visibleKeys → is_Some (layouts !! k) →
       is_Some (out !! k)
       ∧ length (filter (λ kp, kp.1 = k) (map_to_list out)) = 1%nat).
Proof.
  intros out.
  assert (∀ k, k ∈ dom out ↔ k ∈ visibleKeys ∧ is_Some (layouts !! k)) as Hdom.
  { intros k. unfold out, compactLayoutsUtil. rewrite run_dom; simpl.
    rewrite dom_empty_L, (left_id_L ∅ (∪)), elem_of_list_to_set.
    apply elem_of_items_keys. }
  split; [|split; [|split]].
  - apply set_eq. intros k. rewrite Hdom, elem_of_intersection,
      elem_of_list_to_set, elem_of_dom. done.
  - intros k Hk. apply not_elem_of_dom. rewrite Hdom. tauto.
  - intros k Hk. apply not_elem_of_dom. rewrite Hdom, Hk.
    intros [_ [? ?]]. done.
  - intros k Hk Hl. assert (k ∈ dom out) as Hin by (apply Hdom; done).
    split; [by apply elem_of_dom|].
    apply count_key_once; [apply NoDup_fst_map_to_list|].
    apply elem_of_dom in Hin as [p Hp].
    apply list_elem_of_fmap. exists (k, p). split; [done|].
    by apply elem_of_map_to_list.
Qed.

(** C8. [compactLayoutsUtil] changes positions only: every placement of the
    output has the width and the height its widget has in the input. *)
Theorem compact_keeps_size (layouts : WidgetLayoutConfig)
    (visibleKeys : list string) (k : string) (q : WidgetLayout) :
  compactLayoutsUtil layouts visibleKeys !! k = Some q →
  ∃ p, layouts !! k = Some p ∧ ww q = ww p ∧ wh q = wh p.
Proof.
  apply run_keeps_size.
Qed.

Lemma compact_keeps_size_witness :
  compactLayoutsUtil exampleLayout ["A"; "B"] !! "B" = Some (mkLayout 3 0 3 2)
  ∧ ∃ p, exampleLayout !! "B" = Some p ∧ ww (mkLayout 3 0 3 2) = ww p
         ∧ wh (mkLayout 3 0 3 2) = wh p.
Proof.
  split; [vm_compute; reflexivity|].
  apply (compact_keeps_size exampleLayout ["A"; "B"]). vm_compute. reflexivity.
Defined.

(** C9. On the layout [{A: {x:0, y:0, w:3, h:2}, B: {x:5, y:3, w:3, h:2}}]
    with the visible sequence [A, B], [compactLayoutsUtil] places A at
    (0, 0) and B at (3, 0), both three columns wide and two rows high. *)
Theorem compact_example :
  compactLayoutsUtil exampleLayout ["A"; "B"]
  = {[ "A" := mkLayout 0 0 3 2; "B" := mkLayout 3 0 3 2 ]}.
Proof. vm_compute. reflexivity. Qed.

(** C5. When every placement of the input satisfies the invariant of the
    data model (x, y >= 0, w, h >= 1, x + w <= 12), every placement of the
    output satisfies 0 <= x, x + w <= 12 and y >= 0. *)
Theorem compact_contained (layouts : WidgetLayoutConfig)
    (visibleKeys : list string) :
  (∀ k p, layouts !! k = Some p → validPlacement p) →
  ∀ k q, compactLayoutsUtil layouts visibleKeys !! k = Some q →
    0 ≤ wx q ∧ wx q + ww q ≤ 12 ∧ 0 ≤ wy q.
Proof.
  intros Hvalid. unfold compactLayoutsUtil.
  apply (run_invariant (λ st, ∀ k q, compacted st !! k = Some q → contained q)
                       (λ it, ww it.2 ≤ GRID_COLS)).
  - intros st it Hst Hw. by apply step_contained.
  - intros k q. simpl. by rewrite lookup_empty.
  - apply Forall_forall. intros [k p] Hin. simpl.
    apply elem_of_items in Hin as [_ Hp].
    destruct (Hvalid k p Hp) as (? & ? & ? & ? & ?). lia.
Qed.

Lemma compact_contained_witness :
  (∀ k p, exampleLayout !! k = Some p → validPlacement p)
  ∧ 0 ≤ 3 ∧ 3 + 3 ≤ 12 ∧ 0 ≤ 0.
Proof.
  assert (∀ k p, exampleLayout !! k = Some p → validPlacement p) as Hvalid.
  { intros k p. unfold exampleLayout.
    destruct (decide (k = "A")) as [->|HA].
    { rewrite lookup_insert_eq. intros [= <-].
      unfold validPlacement, GRID_COLS; simpl; lia. }
    rewrite lookup_insert_ne by done.
    destruct (decide (k = "B")) as [->|HB].
    { rewrite lookup_singleton_eq. intros [= <-].
      unfold validPlacement, GRID_COLS; simpl; lia. }
    by rewrite lookup_singleton_ne. }
  split; [exact Hvalid|].
  apply (compact_contained exampleLayout ["A"; "B"] Hvalid "B" (mkLayout 3 0 3 2)).
  vm_compute. reflexivity.
Defined.

(** C1, counterexample. Two widgets of the full width, each a hundred rows
    tall: the second finds no slot in rows 0..99, falls back to row 2 and
    lies across the first. *)
Lemma compact_overlap_counterexample :
  (∀ k p, tallLayout !! k = Some p → validPlacement p)
  ∧ ¬ noOverlap (compactLayoutsUtil tallLayout ["A"; "B"]).
Proof.
  split.
  { intros k p. unfold tallLayout.
    destruct (decide (k = "A")) as [->|HA].
    { rewrite lookup_insert_eq. intros [= <-].
      unfold validPlacement, GRID_COLS; simpl; lia. }
    rewrite lookup_insert_ne by done.
    destruct (decide (k = "B")) as [->|HB].
    { rewrite lookup_singleton_eq. intros [= <-].
      unfold validPlacement, GRID_COLS; simpl; lia. }
    by rewrite lookup_singleton_ne. }
  intros Hno.
  apply (Hno "A" "B" (mkLayout 0 0 12 100) (mkLayout 0 2 12 100));
    [done|vm_compute; reflexivity..|].
  exists 2, 0. unfold inFootprint; simpl. lia.
Qed.

(** C1, as amended. When every widget is placed by the first-fit scan, that
    is when no widget falls to the branch after the loops, the layout
    returned by [compactLayoutsUtil] contains no two distinct widgets whose
    footprints intersect. *)
Theorem compact_no_overlap (layouts : WidgetLayoutConfig)
    (visibleKeys : list string) :
  placedByScan layouts visibleKeys = true →
  noOverlap (compactLayoutsUtil layouts visibleKeys).
Proof.
  intros Hall. unfold compactLayoutsUtil.
  apply run_scanned_noOverlap; [done|..].
  - intros k p r c. simpl. by rewrite lookup_empty.
  - intros k1 k2 p1 p2 _. simpl. by rewrite lookup_empty.
Qed.

Lemma compact_no_overlap_witness :
  placedByScan exampleLayout ["A"; "B"] = true
  ∧ noOverlap (compactLayoutsUtil exampleLayout ["A"; "B"]).
Proof.
  split; [vm_compute; reflexivity|].
  apply (compact_no_overlap exampleLayout ["A"; "B"]). vm_compute. reflexivity.
Defined.

(** C3, counterexample. The wide widget X is processed before W and lands in
    row 1; W then finds room in row 0 only at column 9, to the right of the
    cells X covers. In the second pass W precedes X, takes column 6, and X
    moves down to row 2. *)
Lemma compact_idempotent_counterexample :
  compactLayoutsUtil (compactLayoutsUtil shelfLayout ["A"; "X"; "W"])
                     ["A"; "X"; "W"]
  ≠ compactLayoutsUtil shelfLayout ["A"; "X"; "W"].
Proof.
  intros H. apply (f_equal (λ m : WidgetLayoutConfig, m !! "W")) in H.
  vm_compute in H. discriminate H.
Qed.

(** A second pass that processes the widgets in the order of the first
    repeats it: the placements depend on the order and the sizes only. *)
Lemma compact_again_same_order (layouts : WidgetLayoutConfig)
    (visibleKeys : list string) :
  (items (compactLayoutsUtil layouts visibleKeys) visibleKeys).*1
    = (items layouts visibleKeys).*1 →
  compactLayoutsUtil (compactLayoutsUtil layouts visibleKeys) visibleKeys
  = compactLayoutsUtil layouts visibleKeys.
Proof.
  intros Hkeys. unfold compactLayoutsUtil at 1 3. f_equal.
  apply run_ext; [done|].
  intros k p1 p2 H1 H2.
  apply elem_of_items in H1 as [_ H1]. apply elem_of_items in H2 as [_ H2].
  apply run_keeps_size in H1 as (p & Hp & Hw & Hh).
  rewrite H2 in Hp. by injection Hp as <-.
Qed.

(** A repeated identifier in the visible sequence is placed twice, and the
    second placement, made around the first, is the one that is kept: the
    first-fit property below is stated for sequences without repetitions. *)
Example compact_repeated_id :
  compactLayoutsUtil exampleLayout ["A"; "A"] = {[ "A" := mkLayout 3 0 3 2 ]}.
Proof. vm_compute. reflexivity. Qed.

(** C2, counterexample. In [tallLayout] widget B is processed after A. Row
    100, column 0 is a position where its footprint lies within the columns
    and clear of A, so a least such position exists; yet B is assigned row
    2, where it intersects A. *)
Lemma compact_first_fit_counterexample :
  let out := compactLayoutsUtil tallLayout ["A"; "B"] in
  let pre := [("A", mkLayout 0 0 12 100)] in
  items tallLayout ["A"; "B"] = pre ++ [("B", mkLayout 0 100 12 100)]
  ∧ freeSlot out pre (mkLayout 0 100 12 100)
  ∧ ¬ ∃ p, out !! "B" = Some p
           ∧ freeSlot out pre p
           ∧ ∀ x y, freeSlot out pre (mkLayout x y 12 100) →
                    scanLe (wx p) (wy p) x y.
Proof.
  intros out pre.
  assert (out !! "A" = Some (mkLayout 0 0 12 100)) as HA
    by (vm_compute; reflexivity).
  assert (out !! "B" = Some (mkLayout 0 2 12 100)) as HB
    by (vm_compute; reflexivity).
  split; [vm_compute; reflexivity|]. split.
  - split; [unfold withinColumns, GRID_COLS; simpl; lia|]. split; [simpl; lia|].
    intros it p Hit Hp. apply list_elem_of_singleton in Hit as ->.
    simpl in Hp. rewrite HA in Hp. injection Hp as <-.
    intros (r & c & [Hr _] & [Hr' _]). simpl in *. lia.
  - intros (p & Hp & (_ & _ & Hfree) & _).
    rewrite HB in Hp. injection Hp as <-.
    apply (Hfree ("A", mkLayout 0 0 12 100) (mkLayout 0 0 12 100));
      [by left|exact HA|].
    exists 2, 0. unfold inFootprint; simpl. lia.
Qed.

(** C2, as amended. For a visible sequence without repeated identifiers:
    whenever some position in rows 0..99 holds the footprint of a widget
    within the 12 columns and clear of the footprints of the widgets
    processed before it (in the ascending (y, x) order of [items]), the
    widget is assigned the least such position, topmost row first, then
    leftmost column. *)
Theorem compact_first_fit (layouts : WidgetLayoutConfig)
    (visibleKeys : list string) (pre : list Item) (it : Item)
    (post : list Item) :
  NoDup visibleKeys →
  items layouts visibleKeys = pre ++ it :: post →
  let out := compactLayoutsUtil layouts visibleKeys in
  (∃ x y, y ≤ 99 ∧ freeSlot out pre (mkLayout x y (ww it.2) (wh it.2))) →
  ∃ p, out !! it.1 = Some p ∧ ww p = ww it.2 ∧ wh p = wh it.2
       ∧ freeSlot out pre p
       ∧ ∀ x y, freeSlot out pre (mkLayout x y (ww it.2) (wh it.2)) →
                scanLe (wx p) (wy p) x y.
Proof.
  intros Hnd Hitems out (x0 & y0 & Hy0 & Hfree0).
  assert (NoDup (pre ++ it :: post).*1) as Hnd'.
  { rewrite <- Hitems. by apply items_keys_NoDup. }
  unfold out, compactLayoutsUtil in *. rewrite Hitems in *.
  set (st := foldl step initial pre).
  apply (freeSlot_canPlace pre it post) in Hfree0 as [Hy0' Hfit0]; [|done].
  fold st in Hfit0. simpl in Hy0', Hfit0.
  destruct (firstFit (grid st) (ww it.2) (wh it.2)) as [[x y]|] eqn:E.
  2:{ rewrite (firstFit_None _ _ _ E) in Hfit0 by lia. done. }
  exists (mkLayout x y (ww it.2) (wh it.2)).
  apply firstFit_Some in E as Hscan. destruct Hscan as (Hy & Hfit & Hmin).
  split; [|split; [done|split; [done|split]]].
  - rewrite foldl_app. simpl. fold st.
    rewrite run_lookup_other.
    + unfold step. rewrite E. simpl. by rewrite lookup_insert_eq.
    + rewrite fmap_app, fmap_cons in Hnd'.
      apply NoDup_app in Hnd' as (_ & _ & Hrest).
      by apply NoDup_cons in Hrest as [? _].
  - apply (freeSlot_canPlace pre it post); [done|]. fold st. simpl.
    split; [lia|done].
  - intros x' y' Hfree'.
    apply (freeSlot_canPlace pre it post) in Hfree' as [Hy' Hfit']; [|done].
    fold st in Hfit'. simpl in *. by apply Hmin.
Qed.

Lemma compact_first_fit_witness :
  let out := compactLayoutsUtil exampleLayout ["A"; "B"] in
  let pre := [("A", mkLayout 0 0 3 2)] in
  NoDup ["A"; "B"]
  ∧ items exampleLayout ["A"; "B"] = pre ++ [("B", mkLayout 5 3 3 2)]
  ∧ freeSlot out pre (mkLayout 3 0 3 2)
  ∧ ∃ p, out !! "B" = Some p ∧ ww p = 3 ∧ wh p = 2
         ∧ freeSlot out pre p
         ∧ ∀ x y, freeSlot out pre (mkLayout x y 3 2) → scanLe (wx p) (wy p) x y.
Proof.
  intros out pre.
  assert (NoDup ["A"; "B"]) as Hnd.
  { apply NoDup_cons. split; [|apply NoDup_singleton].
    intros Hin. apply list_elem_of_singleton in Hin. discriminate Hin. }
  assert (items exampleLayout ["A"; "B"] = pre ++ [("B", mkLayout 5 3 3 2)])
    as Hitems by (vm_compute; reflexivity).
  assert (freeSlot out pre (mkLayout 3 0 3 2)) as Hfree.
  { split; [unfold withinColumns, GRID_COLS; simpl; lia|]. split; [simpl; lia|].
    intros it p Hit Hp. apply list_elem_of_singleton in Hit as ->.
    assert (out !! "A" = Some (mkLayout 0 0 3 2)) as HA
      by (vm_compute; reflexivity).
    simpl in Hp. rewrite HA in Hp. injection Hp as <-.
    intros (r & c & [_ Hc] & [_ Hc']). simpl in *. lia. }
  split; [exact Hnd|]. split; [exact Hitems|]. split; [exact Hfree|].
  apply (compact_first_fit exampleLayout ["A"; "B"] pre
           ("B", mkLayout 5 3 3 2) [] Hnd Hitems).
  exists 3, 0. split; [lia|exact Hfree].
Defined.

End CompactClaims.

(** * findNextGridPosition *)

Module FindNextFacts.
Import FindNext FindNextSpec.
Implicit Types (g : Grid).

Lemma markLayout_spec g p r c :
  cell (markLayout g p) r c = true
  ↔ (wy p ≤ r < wy p + wh p ∧ wx p ≤ c < Z.min (wx p + ww p) COLS)
    ∨ cell g r c = true.
Proof.
  unfold markLayout.
  rewrite (cell_mark_rows (λ i, i) (λ j, j)). split.
  - intros [(i & j & Hi & Hj & -> & ->)|H]; [left|by right].
    apply elem_of_seqZ in Hi, Hj. lia.
  - intros [[Hr Hc]|H]; [left|by right].
    exists r, c. rewrite !elem_of_seqZ. lia.
Qed.

Lemma buildGrid_spec (layout : WidgetLayoutConfig) r c :
  cell (buildGrid layout) r c = true
  ↔ ∃ k p, layout !! k = Some p
           ∧ wy p ≤ r < wy p + wh p ∧ wx p ≤ c < Z.min (wx p + ww p) COLS.
Proof.
  unfold buildGrid.
  apply (map_fold_weak_ind
           (λ g (m : WidgetLayoutConfig), cell g r c = true
              ↔ ∃ k p, m !! k = Some p
                 ∧ wy p ≤ r < wy p + wh p ∧ wx p ≤ c < Z.min (wx p + ww p) COLS)).
  - rewrite cell_empty. split; [done|].
    intros (k & p & Hp & _). by rewrite lookup_empty in Hp.
  - intros k p m g Hk IH. rewrite markLayout_spec, IH. split.
    + intros [Hin|(k' & p' & Hp' & Hin)].
      * exists k, p. by rewrite lookup_insert_eq.
      * exists k', p'. split; [|done]. rewrite lookup_insert_ne; [done|].
        intros <-. congruence.
    + intros (k' & p' & Hp' & Hin).
      destruct (decide (k = k')) as [<-|Hne].
      * rewrite lookup_insert_eq in Hp'. injection Hp' as <-. by left.
      * rewrite lookup_insert_ne in Hp' by done. right. eauto.
Qed.

(** Within the twelve columns the grid shows the occupancy of the layout;
    the clipping at [COLS] only drops cells no scan reads. *)
Lemma buildGrid_occupied (layout : WidgetLayoutConfig) r c :
  c < COLS → cell (buildGrid layout) r c = true ↔ occupied layout r c.
Proof.
  intros Hc. rewrite buildGrid_spec. unfold occupied, inFootprint.
  split; intros (k & p & Hp & Hin); exists k, p; (split; [done|lia]).
Qed.

Lemma forallb_pointwise {A} (f f' : A → bool) l :
  (∀ a, f a = f' a) → forallb f l = forallb f' l.
Proof.
  intros H. induction l as [|a l IH]; simpl; [done|]. by rewrite H, IH.
Qed.

Lemma allFree_sameCells g g' x y w h :
  sameCells g g' → allFree g' x y w h = allFree g x y w h.
Proof.
  intros Hs. unfold allFree.
  apply forallb_pointwise. intros dy. apply forallb_pointwise. intros dx.
  by rewrite Hs.
Qed.

Lemma sameCells_ensure_row g r : sameCells g (ensure_row g r).
Proof. intros r' c. by rewrite cell_ensure_row. Qed.

Lemma sameCells_trans g1 g2 g3 :
  sameCells g1 g2 → sameCells g2 g3 → sameCells g1 g3.
Proof. intros H12 H23 r c. by rewrite H12. Qed.

(** The rows created while reading do not change what is read. *)
Lemma fitsRows_pure g x y w dys :
  sameCells g (fitsRows g x y w dys).1
  ∧ (fitsRows g x y w dys).2
    = forallb (λ dy, forallb (λ dx, negb (cell g (y + dy) (x + dx))) (seqZ 0 w))
              dys.
Proof.
  revert g. induction dys as [|dy dys IH]; intros g; simpl; [done|].
  pose proof (sameCells_ensure_row g (y + dy)) as Hs.
  assert (forallb (λ dx, negb (cell (ensure_row g (y + dy)) (y + dy) (x + dx)))
                  (seqZ 0 w)
          = forallb (λ dx, negb (cell g (y + dy) (x + dx))) (seqZ 0 w)) as ->.
  { apply forallb_pointwise. intros dx. by rewrite cell_ensure_row. }
  destruct (forallb _ (seqZ 0 w)); simpl; [|done].
  destruct (IH (ensure_row g (y + dy))) as [Hs' ->]. split.
  - by eapply sameCells_trans.
  - apply forallb_pointwise. intros dy'. apply forallb_pointwise. intros dx.
    by rewrite cell_ensure_row.
Qed.

Lemma find_ext_in (f f' : Z → bool) xs :
  (∀ x, f x = f' x) → List.find f xs = List.find f' xs.
Proof.
  intros H. induction xs as [|x xs IH]; simpl; [done|]. by rewrite H, IH.
Qed.

Lemma scanCols_pure g w h y xs :
  sameCells g (scanCols g w h y xs).1
  ∧ (scanCols g w h y xs).2 = List.find (λ x, allFree g x y w h) xs.
Proof.
  revert g. induction xs as [|x xs IH]; intros g; simpl; [done|].
  destruct (fitsRows_pure g x y w (seqZ 0 h)) as [Hs Hb].
  destruct (fitsRows g x y w (seqZ 0 h)) as [g1 fits]; simpl in *.
  fold (allFree g x y w h) in Hb. rewrite <- Hb.
  destruct fits; simpl; [done|].
  destruct (IH g1) as [Hs' ->]. split.
  - by eapply sameCells_trans.
  - apply find_ext_in. intros x'. by apply allFree_sameCells.
Qed.

Lemma firstInRows_ext (fit fit' : Z → Z → bool) xs ys :
  (∀ x y, fit x y = fit' x y) → firstInRows fit xs ys = firstInRows fit' xs ys.
Proof.
  intros H. induction ys as [|y ys IH]; simpl; [done|].
  rewrite (find_ext_in (λ x, fit x y) (λ x, fit' x y)) by done. by rewrite IH.
Qed.

Lemma scanRows_pure g w h ys :
  (λ p, (px p, py p)) <$> scanRows g w h ys
  = firstInRows (λ x y, allFree g x y w h) (seqZ 0 (COLS - w + 1)) ys.
Proof.
  revert g. induction ys as [|y ys IH]; intros g; simpl; [done|].
  destruct (scanCols_pure (ensure_row g y) w h y (seqZ 0 (COLS - w + 1)))
    as [Hs Hr].
  destruct (scanCols (ensure_row g y) w h y (seqZ 0 (COLS - w + 1)))
    as [g1 r]; simpl in *.
  pose proof (sameCells_ensure_row g y) as Hs0.
  rewrite (find_ext_in (λ x, allFree g x y w h)
                       (λ x, allFree (ensure_row g y) x y w h))
    by (intros x; by rewrite (allFree_sameCells g (ensure_row g y))).
  rewrite <- Hr. destruct r as [x|]; [done|].
  rewrite IH. apply firstInRows_ext. intros x' y'.
  apply allFree_sameCells. by eapply sameCells_trans.
Qed.

Lemma fitsAt_allFree (layout : WidgetLayoutConfig) w h x y :
  fitsAt layout w h x y
  ↔ 0 ≤ x < COLS - w + 1 ∧ 0 ≤ y ≤ 99
    ∧ allFree (buildGrid layout) x y w h = true.
Proof.
  unfold fitsAt, withinColumns, GRID_COLS, COLS. rewrite allFree_spec. split.
  - intros ([? ?] & ? & Hfree). repeat split; [lia..|].
    intros r c Hin. destruct (cell (buildGrid layout) r c) eqn:E; [|done].
    apply buildGrid_occupied in E; [by apply Hfree in E|].
    destruct Hin as [_ Hc]. simpl in Hc. unfold COLS. lia.
  - intros (? & ? & Hfree). repeat split; [lia..|].
    intros r c Hin Hocc. apply buildGrid_occupied in Hocc.
    + rewrite (Hfree r c Hin) in Hocc. done.
    + destruct Hin as [_ Hc]. simpl in Hc. unfold COLS. lia.
Qed.

(** The scan returns the first position that fits. *)
Lemma findNext_firstFit_Some (layout : WidgetLayoutConfig) w h p :
  firstFit layout w h = Some p →
  fitsAt layout w h (px p) (py p)
  ∧ ∀ x y, fitsAt layout w h x y → scanLe (px p) (py p) x y.
Proof.
  intros E. unfold firstFit in E.
  assert (firstInRows (λ x y, allFree (buildGrid layout) x y w h)
            (seqZ 0 (COLS - w + 1)) (seqZ 0 100) = Some (px p, py p)) as Hpure
    by (rewrite <- scanRows_pure, E; reflexivity).
  apply firstInRows_Some in Hpure as (Hx & Hy & Hfit & Hmin). split.
  - apply fitsAt_allFree. repeat split; [lia..|done].
  - intros x y Hxy. apply fitsAt_allFree in Hxy as (Hx' & Hy' & Hfit').
    apply Hmin; [lia..|done].
Qed.

(** The scan runs to its end only if no position fits. *)
Lemma findNext_firstFit_None (layout : WidgetLayoutConfig) w h :
  firstFit layout w h = None → ∀ x y, ¬ fitsAt layout w h x y.
Proof.
  intros E x y Hxy. unfold firstFit in E.
  assert (firstInRows (λ x y, allFree (buildGrid layout) x y w h)
            (seqZ 0 (COLS - w + 1)) (seqZ 0 100) = None) as Hpure
    by (rewrite <- scanRows_pure, E; reflexivity).
  apply fitsAt_allFree in Hxy as (Hx & Hy & Hfit).
  rewrite (firstInRows_None _ _ _ _ Hpure x y) in Hfit by lia. done.
Qed.

End FindNextFacts.

Module FindNextClaims.
Import FindNext FindNextSpec FindNextFacts.

(** C6. [findNextGridPosition] always returns a position. If some position
    in rows 0..99 fits the requested footprint within the 12 columns
    against the occupancy of the layout, the result is the first such
    position in top-to-bottom, left-to-right order. The scan runs to its end
    exactly when no such position fits, and the result is then x = 0,
    y = 2 times the number of entries of the layout. *)
Theorem findNext_first_fit_or_fallback (layout : WidgetLayoutConfig) (w h : Z) :
  let p := findNextGridPosition layout w h in
  ((∃ x y, fitsAt layout w h x y) →
     fitsAt layout w h (px p) (py p)
     ∧ ∀ x y, fitsAt layout w h x y → scanLe (px p) (py p) x y)
  ∧ (firstFit layout w h = None ↔ ¬ ∃ x y, fitsAt layout w h x y)
  ∧ ((¬ ∃ x y, fitsAt layout w h x y) →
     p = mkPosition 0 (2 * Z.of_nat (size layout))).
Proof.
  intros p. unfold p, findNextGridPosition.
  destruct (firstFit layout w h) as [q|] eqn:E.
  - pose proof (findNext_firstFit_Some _ _ _ _ E) as [Hfit Hmin].
    split; [done|]. split.
    + split; [done|]. intros Hno. destruct Hno. eauto.
    + intros Hno. destruct Hno. eauto.
  - pose proof (findNext_firstFit_None _ _ _ E) as Hnone.
    split; [|split; [|done]].
    + intros (x & y & Hxy). by apply Hnone in Hxy.
    + split; [|done]. intros _ (x & y & Hxy). by apply Hnone in Hxy.
Qed.

Lemma findNext_first_fit_or_fallback_witness :
  fitsAt barLayout 3 2 0 2
  ∧ fitsAt barLayout 3 2 (px (findNextGridPosition barLayout 3 2))
                         (py (findNextGridPosition barLayout 3 2)).
Proof.
  assert (fitsAt barLayout 3 2 0 2) as Hfit.
  { apply fitsAt_allFree. vm_compute. repeat split; discriminate. }
  split; [exact Hfit|].
  apply (findNext_first_fit_or_fallback barLayout 3 2). eauto.
Defined.

(** The example of section 8 of the specification. *)
Example findNext_below_bar :
  findNextGridPosition barLayout 3 2 = mkPosition 0 2.
Proof. vm_compute. reflexivity. Qed.

(** The fallback is reached when the first hundred rows are taken. *)
Example findNext_fallback :
  firstFit wallLayout 3 2 = None
  ∧ findNextGridPosition wallLayout 3 2 = mkPosition 0 2.
Proof. split; vm_compute; reflexivity. Qed.

(** C10. On the empty layout [findNextGridPosition] returns x = 0, y = 0 for
    every requested width and height, widths above 12 included. *)
Theorem findNext_empty (w h : Z) :
  findNextGridPosition ∅ w h = mkPosition 0 0.
Proof.
  unfold findNextGridPosition.
  destruct (firstFit ∅ w h) as [[x y]|] eqn:E.
  - apply findNext_firstFit_Some in E as [Hfit Hmin]. simpl in *.
    destruct Hfit as ([Hx Hw] & Hy & _).
    assert (fitsAt ∅ w h 0 0) as H0.
    { split; [split; lia|]. split; [lia|].
      intros r c _ (k & p & Hp & _). by rewrite lookup_empty in Hp. }
    apply Hmin in H0. unfold scanLe in H0. f_equal; lia.
  - by rewrite map_size_empty.
Qed.

End FindNextClaims.

(** * parseWidgetLayouts *)

Module LoaderClaims.
Import Loader.

Section WithParser.

Variable JSON_parse : string → Outcome Json.

(** The empty text is not JSON: [JSON.parse] throws on it. *)
Hypothesis JSON_parse_empty : ∀ j, JSON_parse EmptyString ≠ Return j.

(** C7. The loader never raises. A stored value that is an object is the
    layout as it stands; a stored string is parsed and the parsed value is
    the layout if parsing succeeds with a non-null object; an absent value,
    a parse failure, a parsed value that is no object, and a stored boolean
    or number all give the empty layout. *)
Theorem parseWidgetLayouts_never_raises (dashboardPrefs : option DashboardPrefs) :
  let v := layout_view <$> dashboardPrefs in
  let result := parseWidgetLayouts JSON_parse dashboardPrefs in
  (∃ layout, result = Return layout)
  ∧ (∀ j, v = Some j → isObject j = true → result = Return j)
  ∧ (∀ s parsed, v = Some (JString s) → JSON_parse s = Return parsed →
       isObject parsed = true → result = Return parsed)
  ∧ (∀ s parsed, v = Some (JString s) → JSON_parse s = Return parsed →
       isObject parsed = false → result = Return emptyLayout)
  ∧ (∀ s e, v = Some (JString s) → JSON_parse s = Throw e →
       result = Return emptyLayout)
  ∧ (v = None ∨ v = Some JNull ∨ (∃ b, v = Some (JBoolean b))
     ∨ (∃ q, v = Some (JNumber q)) → result = Return emptyLayout).
Proof.
  intros v result. unfold result, parseWidgetLayouts. fold v.
  split; [|split; [|split; [|split; [|split]]]].
  - destruct v as [[|b|q|s|l|o]|]; simpl; eauto.
    + destruct b; simpl; eauto.
    + destruct (Qeq_bool q 0); simpl; eauto.
    + case_bool_decide; simpl; eauto.
      unfold tryParse. destruct (JSON_parse s) as [parsed|e]; simpl; eauto.
      destruct (isObject parsed); simpl; eauto.
  - intros j -> Hobj. by destruct j.
  - intros s parsed -> Hparse Hobj; simpl.
    case_bool_decide as Hs; simpl.
    { subst s. by apply JSON_parse_empty in Hparse. }
    unfold tryParse. by rewrite Hparse; simpl; rewrite Hobj.
  - intros s parsed -> Hparse Hobj; simpl.
    case_bool_decide as Hs; simpl; [done|].
    unfold tryParse. by rewrite Hparse; simpl; rewrite Hobj.
  - intros s e -> Hparse; simpl.
    case_bool_decide as Hs; simpl; [done|].
    unfold tryParse. by rewrite Hparse.
  - intros [->|[->|[[b ->]|[q ->]]]]; simpl; try done.
    + by destruct b.
    + by destruct (Qeq_bool q 0).
Qed.

End WithParser.

Lemma parseWidgetLayouts_never_raises_witness :
  (∀ j, parseBraces EmptyString ≠ Return j)
  ∧ parseWidgetLayouts parseBraces (Some (mkPrefs JNull JNull (JString "{}")))
    = Return (JObject []).
Proof.
  assert (∀ j, parseBraces EmptyString ≠ Return j) as Hempty by (intros j; discriminate).
  split; [exact Hempty|].
  apply (parseWidgetLayouts_never_raises parseBraces Hempty
           (Some (mkPrefs JNull JNull (JString "{}")))) with (s := "{}");
    reflexivity.
Defined.

End LoaderClaims.

(** * The dashboard component *)

Module DashboardFacts.
Import Dashboard.

Lemma elem_of_list_filter {A} (f : A → bool) (l : list A) x :
  x ∈ List.filter f l ↔ x ∈ l ∧ f x = true.
Proof. rewrite !list_elem_of_In. apply filter_In. Qed.

Lemma NoDup_list_filter {A} (f : A → bool) (l : list A) :
  NoDup l → NoDup (List.filter f l).
Proof.
  induction 1 as [|a l Ha Hnd IH]; simpl; [constructor|].
  destruct (f a); [|done]. constructor; [|done].
  rewrite elem_of_list_filter. tauto.
Qed.

Lemma sanitize_fold allowed keys uniq seen :
  (∀ k, k ∈ seen ↔ k ∈ uniq) → NoDup uniq →
  let r := foldl (sanitizeStep allowed) (uniq, seen) keys in
  (∀ k, k ∈ r.2 ↔ k ∈ r.1) ∧ NoDup r.1
  ∧ (∀ k, k ∈ r.1 ↔ k ∈ uniq ∨ (k ∈ keys ∧ k ∈ allowed))
  ∧ ∃ added, r.1 = uniq ++ added ∧ added `sublist_of` keys.
Proof.
  revert uniq seen. induction keys as [|k keys IH]; intros uniq seen Hseen Hnd; simpl.
  - split; [done|]. split; [done|]. split.
    + intros k. split; [by left|]. intros [?|[Hk _]]; [done|].
      by apply elem_of_nil in Hk.
    + exists []. by rewrite app_nil_r.
  - destruct (decide (k ∈ allowed ∧ k ∉ seen)) as [[Hal Hs]|Hno].
    + assert (sanitizeStep allowed (uniq, seen) k
              = (uniq ++ [k], {[k]} ∪ seen)) as ->.
      { unfold sanitizeStep; simpl.
        by rewrite (bool_decide_eq_true_2 _ Hal), (bool_decide_eq_false_2 _ Hs). }
      assert (k ∉ uniq) as Hk by (by rewrite <- Hseen).
      destruct (IH (uniq ++ [k]) ({[k]} ∪ seen)) as (H1 & H2 & H3 & added & H4 & H5).
      { intros k'. rewrite elem_of_union, elem_of_singleton, elem_of_app,
          list_elem_of_singleton, Hseen. tauto. }
      { apply NoDup_app. split; [done|]. split; [|apply NoDup_singleton].
        intros k' Hk' Hin. apply list_elem_of_singleton in Hin as ->. done. }
      split; [done|]. split; [done|]. split.
      * intros k'. rewrite H3, elem_of_app, list_elem_of_singleton, elem_of_cons.
        split; [intros [[?| ->] | [? ?]]; tauto|]. intros [?|[[->|?] ?]]; tauto.
      * exists (k :: added). split; [by rewrite H4, <- app_assoc|].
        by apply sublist_skip.
    + assert (sanitizeStep allowed (uniq, seen) k = (uniq, seen)) as ->.
      { unfold sanitizeStep; simpl.
        destruct (bool_decide_reflect (k ∈ allowed)); simpl; [|done].
        destruct (bool_decide_reflect (k ∈ seen)); simpl; [done|tauto]. }
      destruct (IH uniq seen Hseen Hnd) as (H1 & H2 & H3 & added & H4 & H5).
      split; [done|]. split; [done|]. split.
      * intros k'. rewrite H3, elem_of_cons. split; [tauto|].
        intros [?|[[->|?] Hal]]; [tauto| |tauto].
        left. apply Hseen. destruct (decide (k ∈ seen)); tauto.
      * exists added. split; [done|]. by apply sublist_cons.
Qed.

(** On keys that are allowed, distinct and not yet seen, the loop appends
    them all. *)
Lemma sanitize_fold_clean allowed keys uniq seen :
  NoDup keys → (∀ k, k ∈ keys → k ∈ allowed ∧ k ∉ seen) →
  (foldl (sanitizeStep allowed) (uniq, seen) keys).1 = uniq ++ keys.
Proof.
  revert uniq seen. induction keys as [|k keys IH]; intros uniq seen Hnd Hok; simpl.
  - by rewrite app_nil_r.
  - apply NoDup_cons in Hnd as [Hk Hnd].
    destruct (Hok k) as [Hal Hs]; [by left|].
    assert (sanitizeStep allowed (uniq, seen) k
            = (uniq ++ [k], {[k]} ∪ seen)) as ->.
    { unfold sanitizeStep; simpl.
      by rewrite (bool_decide_eq_true_2 _ Hal), (bool_decide_eq_false_2 _ Hs). }
    rewrite IH, <- app_assoc; [done|done|].
    intros k' Hk'. destruct (Hok k') as [? ?]; [by right|].
    split; [done|]. rewrite elem_of_union, elem_of_singleton.
    intros [->|?]; done.
Qed.

Lemma sanitizeKeys_spec defaultKeys keys :
  NoDup (sanitizeKeys defaultKeys keys)
  ∧ (∀ k, k ∈ sanitizeKeys defaultKeys keys ↔ k ∈ keys ∧ k ∈ defaultKeys)
  ∧ sanitizeKeys defaultKeys keys `sublist_of` keys.
Proof.
  unfold sanitizeKeys.
  destruct (sanitize_fold (list_to_set defaultKeys) keys [] ∅)
    as (_ & Hnd & Hin & added & Heq & Hsub).
  { intros k. rewrite elem_of_empty. split; [done|]. apply elem_of_nil. }
  { apply NoDup_nil_2. }
  split; [done|]. split.
  - intros k. rewrite Hin, elem_of_list_to_set. split; [|tauto].
    intros [Hk|?]; [|done]. by apply elem_of_nil in Hk.
  - by rewrite Heq.
Qed.

Lemma sanitizeKeys_clean defaultKeys keys :
  NoDup keys → (∀ k, k ∈ keys → k ∈ defaultKeys) →
  sanitizeKeys defaultKeys keys = keys.
Proof.
  intros Hnd Hal. unfold sanitizeKeys. rewrite sanitize_fold_clean; [done..|].
  intros k Hk. split; [by apply elem_of_list_to_set, Hal|apply not_elem_of_empty].
Qed.

(** The result on a prefix of the input is a prefix of the result. *)
Lemma sanitizeKeys_prefix defaultKeys keys keys' :
  sanitizeKeys defaultKeys keys `prefix_of` sanitizeKeys defaultKeys (keys ++ keys').
Proof.
  unfold sanitizeKeys. rewrite foldl_app.
  destruct (sanitize_fold (list_to_set defaultKeys) keys [] ∅)
    as (Hseen & Hnd & _ & _).
  { intros k. rewrite elem_of_empty. split; [done|]. apply elem_of_nil. }
  { apply NoDup_nil_2. }
  destruct (foldl (sanitizeStep (list_to_set defaultKeys)) ([], ∅) keys)
    as [uniq seen]; simpl in *.
  destruct (sanitize_fold (list_to_set defaultKeys) keys' uniq seen Hseen Hnd)
    as (_ & _ & _ & added & -> & _).
  by exists added.
Qed.

(** The keys of the result stand in the order of their first occurrences in
    the input: if [a] stands before [b] in the result, then [a] occurs in
    the input before any occurrence of [b]. *)
Lemma sanitizeKeys_order defaultKeys keys l1 a l2 b l3 :
  sanitizeKeys defaultKeys keys = l1 ++ a :: l2 ++ b :: l3 →
  ∃ k1 k2, keys = k1 ++ a :: k2 ∧ (a ∉ k1) ∧ (b ∉ k1).
Proof.
  intros Hres.
  destruct (sanitizeKeys_spec defaultKeys keys) as (Hnd & Hin & _).
  assert (a ∈ keys) as Ha.
  { apply Hin. rewrite Hres, elem_of_app, elem_of_cons. tauto. }
  assert (b ∈ defaultKeys) as Hb.
  { apply Hin. rewrite Hres, elem_of_app, !elem_of_cons, elem_of_app,
      elem_of_cons. tauto. }
  apply list_elem_of_split_l in Ha as (k1 & k2 & Hkeys & Hk1).
  exists k1, k2. split; [done|]. split; [done|]. intros Hbk1.
  destruct (sanitizeKeys_spec defaultKeys k1) as (_ & Hin1 & _).
  assert (b ∈ sanitizeKeys defaultKeys k1) as Hb1 by (by apply Hin1).
  assert (a ∉ sanitizeKeys defaultKeys k1) as Ha1.
  { intros H. by apply Hin1 in H as [? _]. }
  destruct (sanitizeKeys_prefix defaultKeys k1 (a :: k2)) as [rest Hpre].
  rewrite <- Hkeys, Hres in Hpre.
  rewrite Hres in Hnd. apply NoDup_app in Hnd as (_ & Hdisj & _).
  assert (b ∈ l1 → False) as Hnot.
  { intros Hbl1. apply (Hdisj b Hbl1).
    rewrite elem_of_cons, elem_of_app, elem_of_cons. tauto. }
  apply app_eq_inv in Hpre as [(k & Hl1 & _)|(k & Hs & Hk)].
  - apply Hnot. rewrite Hl1, elem_of_app. by left.
  - destruct k as [|a' k].
    + apply Hnot. rewrite app_nil_r in Hs. by rewrite <- Hs.
    + simpl in Hk. injection Hk as Ha' _. apply Ha1.
      rewrite Hs, elem_of_app, elem_of_cons. tauto.
Qed.

(** *** The set of pending changes *)

Lemma elem_of_setDelete s k k' : k' ∈ setDelete s k ↔ k' ∈ s ∧ k' ≠ k.
Proof.
  unfold setDelete. rewrite elem_of_list_filter, negb_true_iff.
  by rewrite bool_decide_eq_false.
Qed.

Lemma elem_of_setAdd s k k' : k' ∈ setAdd s k ↔ k' ∈ s ∨ k' = k.
Proof.
  unfold setAdd, setHas. case_bool_decide as Hk.
  - split; [by left|]. by intros [?| ->].
  - by rewrite elem_of_app, list_elem_of_singleton.
Qed.

Lemma elem_of_togglePending s k k' :
  k' ∈ togglePending s k ↔ (k' = k ∧ k ∉ s) ∨ (k' ≠ k ∧ k' ∈ s).
Proof.
  unfold togglePending; simpl. unfold setHas at 1. case_bool_decide as Hk.
  - rewrite elem_of_setDelete. tauto.
  - rewrite elem_of_setAdd. split.
    + intros [?| ->]; [right|by left]. split; [|done]. by intros ->.
    + intros [[-> _]|[_ ?]]; [by right|by left].
Qed.

Lemma NoDup_togglePending s k : NoDup s → NoDup (togglePending s k).
Proof.
  intros Hnd. unfold togglePending; simpl. unfold setHas at 1.
  case_bool_decide as Hk.
  - unfold setDelete. by apply NoDup_list_filter.
  - unfold setAdd, setHas. rewrite bool_decide_eq_false_2 by done.
    apply NoDup_app. split; [done|]. split; [|apply NoDup_singleton].
    intros k' Hk' Hin. apply list_elem_of_singleton in Hin as ->. done.
Qed.

(** *** The loop of handleSaveLayout *)

Lemma saveStep_visible vis acc k k' :
  k' ∈ finalVisible (saveStep vis acc k)
  ↔ (k' = k ∧ k ∉ vis) ∨ (k' ≠ k ∧ k' ∈ finalVisible acc).
Proof.
  unfold saveStep. case_bool_decide as Hk; simpl.
  - rewrite elem_of_list_filter, negb_true_iff, bool_decide_eq_false. tauto.
  - rewrite elem_of_app, list_elem_of_singleton.
    destruct (decide (k' = k)) as [->|]; tauto.
Qed.

Lemma save_fold_visible vis pending acc k :
  k ∈ finalVisible (foldl (saveStep vis) acc pending)
  ↔ (k ∈ pending ∧ k ∉ vis) ∨ ((k ∉ pending) ∧ k ∈ finalVisible acc).
Proof.
  revert acc. induction pending as [|k0 pending IH]; intros acc; simpl.
  - split.
    + intros Hk. right. split; [apply not_elem_of_nil|done].
    + intros [[Hk _]|[_ ?]]; [by apply elem_of_nil in Hk|done].
  - rewrite IH, saveStep_visible, not_elem_of_cons, elem_of_cons.
    destruct (decide (k ∈ pending)); destruct (decide (k = k0)) as [->|];
      intuition congruence.
Qed.

Lemma save_fold_order vis pending acc :
  (∀ k, k ∈ finalVisible acc → k ∈ finalOrder acc) →
  ∀ k, k ∈ finalVisible (foldl (saveStep vis) acc pending) →
       k ∈ finalOrder (foldl (saveStep vis) acc pending).
Proof.
  revert acc. induction pending as [|k0 pending IH]; intros acc Hsub; simpl.
  - done.
  - apply IH. intros k. unfold saveStep. case_bool_decide as Hk0; simpl.
    + rewrite !elem_of_list_filter. intros [? ?]. auto.
    + rewrite elem_of_app, list_elem_of_singleton.
      case_bool_decide as Hin.
      * intros [?| ->]; auto.
      * rewrite elem_of_app, list_elem_of_singleton. intros [?| ->]; auto.
Qed.

Lemma save_fold_NoDup_order vis pending acc :
  NoDup (finalOrder acc) →
  NoDup (finalOrder (foldl (saveStep vis) acc pending)).
Proof.
  revert acc. induction pending as [|k0 pending IH]; intros acc Hnd; simpl.
  - done.
  - apply IH. unfold saveStep. case_bool_decide as Hk0; simpl.
    + by apply NoDup_list_filter.
    + case_bool_decide as Hin; [done|].
      apply NoDup_app. split; [done|]. split; [|apply NoDup_singleton].
      intros k' Hk' Hin'. apply list_elem_of_singleton in Hin' as ->. done.
Qed.

Lemma save_fold_NoDup_visible vis pending acc :
  NoDup pending → NoDup (finalVisible acc) →
  (∀ k, k ∈ finalVisible acc → k ∈ vis ∨ k ∉ pending) →
  NoDup (finalVisible (foldl (saveStep vis) acc pending)).
Proof.
  revert acc. induction pending as [|k0 pending IH]; intros acc Hp Hnd Hinv; simpl.
  - done.
  - apply NoDup_cons in Hp as [Hk0 Hp]. apply IH; [done| |].
    + unfold saveStep. case_bool_decide as Hv; simpl.
      * by apply NoDup_list_filter.
      * apply NoDup_app. split; [done|]. split; [|apply NoDup_singleton].
        intros k' Hk' Hin. apply list_elem_of_singleton in Hin as ->.
        destruct (Hinv k0 Hk') as [?|Hno]; [done|].
        apply Hno. by left.
    + intros k. rewrite saveStep_visible. intros [[-> _]|[Hne Hk]].
      * by right.
      * destruct (Hinv k Hk) as [?|Hno]; [by left|].
        right. intros Hin. apply Hno. by right.
Qed.

(** The entry of a key in [finalLayouts] after the loop. *)
Lemma save_fold_layouts vis pending acc k :
  (k ∈ pending → k ∈ vis →
     finalLayouts (foldl (saveStep vis) acc pending) !! k = None)
  ∧ (k ∈ pending → k ∉ vis →
     ∃ q, finalLayouts (foldl (saveStep vis) acc pending) !! k = Some q
          ∧ ww q = 3 ∧ wh q = 2)
  ∧ (k ∉ pending →
     finalLayouts (foldl (saveStep vis) acc pending) !! k
     = finalLayouts acc !! k).
Proof.
  revert acc. induction pending as [|k0 pending IH]; intros acc; simpl.
  - split; [intros Hk; by apply elem_of_nil in Hk|].
    split; [intros Hk; by apply elem_of_nil in Hk|done].
  - destruct (IH (saveStep vis acc k0)) as (IH1 & IH2 & IH3).
    destruct (decide (k ∈ pending)) as [Hin|Hin].
    { split; [auto|]. split; [auto|]. intros Hno. destruct Hno. by right. }
    rewrite IH3 by done.
    destruct (decide (k = k0)) as [->|Hne].
    + split; [|split].
      * intros _ Hv. unfold saveStep.
        rewrite bool_decide_eq_true_2 by done. simpl. apply lookup_delete_eq.
      * intros _ Hv. unfold saveStep.
        rewrite bool_decide_eq_false_2 by done. simpl.
        rewrite lookup_insert_eq. eauto.
      * intros Hno. destruct Hno. by left.
    + split; [|split].
      * intros Hk. apply elem_of_cons in Hk as [?|?]; done.
      * intros Hk. apply elem_of_cons in Hk as [?|?]; done.
      * intros _. unfold saveStep. case_bool_decide; simpl.
        -- by rewrite lookup_delete_ne.
        -- by rewrite lookup_insert_ne.
Qed.

(** *** The customize mode *)

Lemma applyEdit_frame st e :
  visibleWidgets (applyEdit st e) = visibleWidgets st
  ∧ widgetOrder (applyEdit st e) = widgetOrder st
  ∧ originalState (applyEdit st e) = originalState st
  ∧ isResizeMode (applyEdit st e) = isResizeMode st.
Proof. by destruct e. Qed.

Lemma edits_frame st edits :
  visibleWidgets (foldl applyEdit st edits) = visibleWidgets st
  ∧ widgetOrder (foldl applyEdit st edits) = widgetOrder st
  ∧ originalState (foldl applyEdit st edits) = originalState st
  ∧ isResizeMode (foldl applyEdit st edits) = isResizeMode st.
Proof.
  revert st. induction edits as [|e edits IH]; intros st; simpl; [done|].
  destruct (IH (applyEdit st e)) as (-> & -> & -> & ->).
  apply applyEdit_frame.
Qed.

Lemma edits_pending_NoDup st edits :
  NoDup (pendingWidgetChanges st) →
  NoDup (pendingWidgetChanges (foldl applyEdit st edits)).
Proof.
  revert st. induction edits as [|e edits IH]; intros st Hnd; simpl; [done|].
  apply IH. destruct e; simpl; [done|by apply NoDup_togglePending..].
Qed.

End DashboardFacts.

(** * Properties of the dashboard component *)

Module DashboardProps.
Import Dashboard DashboardFacts.

(** X1. [sanitizeKeys] returns the allowed keys of its input, each once, in
    the order of their first occurrence: the result has no repetition, a key
    is in it exactly when it is in the input and among the default keys, the
    result is a subsequence of the input, and whenever [a] stands before [b]
    in the result, the input has an occurrence of [a] that comes before
    every occurrence of [b]. *)
Theorem sanitizeKeys_allowed_once (defaultKeys keys : list string) :
  NoDup (sanitizeKeys defaultKeys keys)
  ∧ (∀ k, k ∈ sanitizeKeys defaultKeys keys ↔ k ∈ keys ∧ k ∈ defaultKeys)
  ∧ sanitizeKeys defaultKeys keys `sublist_of` keys
  ∧ (∀ l1 a l2 b l3,
       sanitizeKeys defaultKeys keys = l1 ++ a :: l2 ++ b :: l3 →
       ∃ k1 k2, keys = k1 ++ a :: k2 ∧ (a ∉ k1) ∧ (b ∉ k1)).
Proof.
  destruct (sanitizeKeys_spec defaultKeys keys) as (H1 & H2 & H3).
  split; [done|]. split; [done|]. split; [done|].
  apply sanitizeKeys_order.
Qed.

Lemma sanitizeKeys_allowed_once_witness :
  sanitizeKeys ["a"; "b"] ["b"; "a"; "b"] = [] ++ "b" :: [] ++ "a" :: []
  ∧ ∃ k1 k2, ["b"; "a"; "b"] = k1 ++ "b" :: k2 ∧ ("b" ∉ k1) ∧ ("a" ∉ k1).
Proof.
  split; [vm_compute; reflexivity|].
  apply (proj2 (proj2 (proj2 (sanitizeKeys_allowed_once ["a"; "b"]
                                                         ["b"; "a"; "b"])))
           [] "b" [] "a" []).
  vm_compute. reflexivity.
Defined.

(** On a repeated key the first occurrence decides the place. *)
Example sanitizeKeys_first_occurrence :
  sanitizeKeys ["a"; "b"] ["a"; "b"; "a"] = ["a"; "b"].
Proof. vm_compute. reflexivity. Qed.

(** X2. [sanitizeKeys] leaves a list of distinct allowed keys as it is, and
    is therefore idempotent. *)
Theorem sanitizeKeys_idempotent (defaultKeys keys : list string) :
  (NoDup keys → (∀ k, k ∈ keys → k ∈ defaultKeys) →
     sanitizeKeys defaultKeys keys = keys)
  ∧ sanitizeKeys defaultKeys (sanitizeKeys defaultKeys keys)
    = sanitizeKeys defaultKeys keys.
Proof.
  split; [apply sanitizeKeys_clean|].
  destruct (sanitizeKeys_spec defaultKeys keys) as (Hnd & Hin & _).
  apply sanitizeKeys_clean; [done|]. intros k Hk. by apply Hin in Hk as [_ ?].
Qed.

Lemma sanitizeKeys_idempotent_witness :
  NoDup ["leads"; "deals"]
  ∧ sanitizeKeys ["leads"; "contacts"; "deals"] ["leads"; "deals"]
    = ["leads"; "deals"].
Proof.
  assert (NoDup ["leads"; "deals"]) as Hnd.
  { apply NoDup_cons. split; [|apply NoDup_singleton].
    intros Hin. apply list_elem_of_singleton in Hin. discriminate Hin. }
  split; [exact Hnd|].
  apply (proj1 (sanitizeKeys_idempotent ["leads"; "contacts"; "deals"]
                                         ["leads"; "deals"])); [exact Hnd|].
  intros k Hk. apply elem_of_cons in Hk as [->|Hk]; [by left|].
  apply list_elem_of_singleton in Hk as ->. right; right; by left.
Defined.

(** On typed lists the load effect yields a visible list and an order list
    without repetitions, every visible widget occurs in the order list, the
    order list holds default keys only, and every widget of the compacted
    layout is visible. *)
Lemma load_lists_consistent (DEFAULT_WIDGETS : list WidgetDef)
    (visible_widgets card_order : option (list string))
    (loadedLayouts : WidgetLayoutConfig) :
  let r := loadPreferences DEFAULT_WIDGETS visible_widgets card_order
                           loadedLayouts in
  NoDup (nextVisible r) ∧ NoDup (nextOrder r)
  ∧ (∀ k, k ∈ nextVisible r → k ∈ nextOrder r)
  ∧ (∀ k, k ∈ nextOrder r → k ∈ defaultWidgetKeys DEFAULT_WIDGETS)
  ∧ (∀ k, is_Some (compactedLayouts r !! k) → k ∈ nextVisible r).
Proof.
  intros r. unfold r, loadPreferences; simpl.
  set (dk := defaultWidgetKeys DEFAULT_WIDGETS).
  set (vraw := match visible_widgets with
               | Some v => v | None => defaultVisibleWidgets DEFAULT_WIDGETS end).
  set (oraw := match card_order with Some o => o | None => dk end).
  destruct (sanitizeKeys_spec dk vraw) as (Hv1 & Hv2 & _).
  destruct (sanitizeKeys_spec dk oraw) as (Ho1 & Ho2 & _).
  split; [done|]. split; [|split; [|split]].
  - apply NoDup_app. split; [done|]. split; [|by apply NoDup_list_filter].
    intros k Hk. rewrite elem_of_list_filter, negb_true_iff, bool_decide_eq_false.
    tauto.
  - intros k Hk. rewrite elem_of_app, elem_of_list_filter, negb_true_iff,
      bool_decide_eq_false.
    destruct (decide (k ∈ sanitizeKeys dk oraw)); tauto.
  - intros k. rewrite elem_of_app, elem_of_list_filter.
    intros [Hk|[Hk _]]; [by apply Ho2 in Hk as [_ ?]|by apply Hv2 in Hk as [_ ?]].
  - intros k Hk. apply elem_of_dom in Hk.
    unfold Compact.compactLayoutsUtil in Hk. rewrite RunFacts.run_dom in Hk.
    simpl in Hk. rewrite dom_empty_L, (left_id_L ∅ (∪)) in Hk.
    apply elem_of_list_to_set, ItemFacts.elem_of_items_keys in Hk as [? _]. done.
Qed.

(** X4. Toggling a widget flips whether it will be visible after saving and
    leaves the preview of every other widget as it was. *)
Theorem toggle_flips_preview (visible pending : list string) (k : string) :
  willWidgetBeVisible visible (togglePending pending k) k
  = negb (willWidgetBeVisible visible pending k)
  ∧ ∀ k', k' ≠ k →
      willWidgetBeVisible visible (togglePending pending k) k'
      = willWidgetBeVisible visible pending k'.
Proof.
  assert (∀ k', setHas (togglePending pending k) k'
                = if decide (k' = k) then negb (setHas pending k')
                  else setHas pending k') as Hhas.
  { intros k'. unfold setHas. destruct (decide (k' = k)) as [->|Hne].
    - destruct (bool_decide_reflect (k ∈ pending)) as [H|H]; simpl;
        [apply bool_decide_eq_false_2|apply bool_decide_eq_true_2];
        rewrite elem_of_togglePending; tauto.
    - apply bool_decide_ext. rewrite elem_of_togglePending. tauto. }
  unfold willWidgetBeVisible. split.
  - rewrite Hhas, decide_True by done.
    destruct (setHas pending k), (bool_decide (k ∈ visible)); done.
  - intros k' Hne. by rewrite Hhas, decide_False by done.
Qed.

(** X5. The pending changes stay a set under toggling, and toggling the same
    widget twice gives back a set with the members it had. *)
Theorem toggle_twice_same_members (pending : list string) (k : string) :
  (NoDup pending → NoDup (togglePending pending k))
  ∧ ∀ k', k' ∈ togglePending (togglePending pending k) k ↔ k' ∈ pending.
Proof.
  split; [apply NoDup_togglePending|].
  intros k'. rewrite !elem_of_togglePending.
  destruct (decide (k' = k)) as [->|]; destruct (decide (k ∈ pending)); tauto.
Qed.

Lemma toggle_twice_same_members_witness :
  NoDup ["leads"; "deals"] ∧ NoDup (togglePending ["leads"; "deals"] "leads").
Proof.
  assert (NoDup ["leads"; "deals"]) as Hnd.
  { apply NoDup_cons. split; [|apply NoDup_singleton].
    intros Hin. apply list_elem_of_singleton in Hin. discriminate Hin. }
  split; [exact Hnd|].
  apply (proj1 (toggle_twice_same_members ["leads"; "deals"] "leads")).
  exact Hnd.
Defined.

(** Toggling twice need not give back the order of insertion. *)
Example toggle_twice_reorders :
  togglePending (togglePending ["leads"; "deals"] "leads") "leads"
  = ["deals"; "leads"].
Proof. reflexivity. Qed.

(** X6. After [handleSaveLayout] a widget is in the visible list exactly
    when [willWidgetBeVisible] announced it. *)
Theorem save_visible_as_previewed (visible order : list string)
    (layouts : WidgetLayoutConfig) (pending : list string) (k : string) :
  k ∈ finalVisible (savedPreferences visible order layouts pending)
  ↔ willWidgetBeVisible visible pending k = true.
Proof.
  unfold savedPreferences, willWidgetBeVisible, setHas; simpl.
  rewrite save_fold_visible; simpl.
  destruct (bool_decide_reflect (k ∈ pending)) as [Hp|Hp];
    destruct (bool_decide_reflect (k ∈ visible)) as [Hv|Hv]; simpl;
    intuition congruence.
Qed.

(** X7. [handleSaveLayout] keeps the lists well formed: from a visible list
    and an order list without repetitions, with every visible widget in the
    order list, it produces lists with the same three properties. *)
Theorem save_lists_wellformed (visible order : list string)
    (layouts : WidgetLayoutConfig) (pending : list string) :
  NoDup pending → NoDup visible → NoDup order →
  (∀ k, k ∈ visible → k ∈ order) →
  let saved := savedPreferences visible order layouts pending in
  NoDup (finalVisible saved) ∧ NoDup (finalOrder saved)
  ∧ ∀ k, k ∈ finalVisible saved → k ∈ finalOrder saved.
Proof.
  intros Hp Hv Ho Hsub saved. unfold saved, savedPreferences; simpl.
  split; [|split].
  - apply save_fold_NoDup_visible; [done..|]. intros k Hk. by left.
  - by apply save_fold_NoDup_order.
  - by apply save_fold_order.
Qed.

Lemma save_lists_wellformed_witness :
  NoDup ["contacts"] ∧ NoDup ["leads"] ∧ NoDup ["leads"; "contacts"]
  ∧ NoDup (finalVisible (savedPreferences ["leads"] ["leads"; "contacts"]
                           exampleLayout ["contacts"])).
Proof.
  assert (NoDup ["contacts"]) as H1 by apply NoDup_singleton.
  assert (NoDup ["leads"]) as H2 by apply NoDup_singleton.
  assert (NoDup ["leads"; "contacts"]) as H3.
  { apply NoDup_cons. split; [|apply NoDup_singleton].
    intros Hin. apply list_elem_of_singleton in Hin. discriminate Hin. }
  split; [exact H1|]. split; [exact H2|]. split; [exact H3|].
  apply (save_lists_wellformed ["leads"] ["leads"; "contacts"] exampleLayout
           ["contacts"] H1 H2 H3).
  intros k Hk. apply list_elem_of_singleton in Hk as ->. by left.
Defined.

End DashboardProps.

(** * Further facts about compactLayoutsUtil *)

Module CompactMoreFacts.
Import Compact CompactSpec CompactFacts ItemFacts RunFacts.

Lemma compact_lookup_is_Some layouts visibleKeys k :
  is_Some (compactLayoutsUtil layouts visibleKeys !! k)
  ↔ k ∈ visibleKeys ∧ is_Some (layouts !! k).
Proof.
  rewrite <- elem_of_dom. unfold compactLayoutsUtil. rewrite run_dom; simpl.
  rewrite dom_empty_L, (left_id_L ∅ (∪)), elem_of_list_to_set.
  apply elem_of_items_keys.
Qed.

(** On the empty grid every item goes to the origin: by the scan when its
    width fits, by the fallback [2 * 0] when it does not. *)
Lemma chosen_initial it :
  chosen initial it = mkLayout 0 0 (ww it.2) (wh it.2).
Proof.
  unfold chosen; simpl.
  destruct (firstFit ∅ (ww it.2) (wh it.2)) as [[x y]|] eqn:E.
  - apply firstFit_Some in E as (Hy & Hfit & Hmin).
    apply canPlace_spec in Hfit as [[Hx Hw] _].
    assert (canPlace ∅ 0 0 (ww it.2) (wh it.2) = true) as H0.
    { apply canPlace_spec. split; [unfold withinColumns; lia|].
      intros r c _. apply cell_empty. }
    apply Hmin in H0; [|lia]. unfold scanLe in H0.
    f_equal; lia.
  - by rewrite map_size_empty.
Qed.

(** With widths of at most 12, heights of at least 1 and at most a hundred
    rows in total, the widgets are stacked no deeper than the sum of their
    heights. *)
Lemma run_height_bound st its B :
  0 ≤ B → (∀ r c, cell (grid st) r c = true → r < B) →
  (∀ k q, compacted st !! k = Some q → 0 ≤ wy q ∧ wy q + wh q ≤ B) →
  Forall (λ it : Item, ww it.2 ≤ GRID_COLS ∧ 1 ≤ wh it.2) its →
  B + totalHeight its ≤ 100 →
  ∀ k q, compacted (foldl step st its) !! k = Some q →
    0 ≤ wy q ∧ wy q + wh q ≤ B + totalHeight its.
Proof.
  revert st B. induction its as [|it its IH];
    intros st B HB Hcells Hent Hits Hsum; simpl in *.
  { intros k q Hq. apply Hent in Hq. lia. }
  apply Forall_cons in Hits as [[Hw Hh] Hits].
  pose proof (totalHeight_nonneg its Hits) as Hnn.
  assert (canPlace (grid st) 0 B (ww it.2) (wh it.2) = true) as Hfit.
  { apply canPlace_spec. split; [unfold withinColumns; lia|].
    intros r c [Hr _]. simpl in Hr.
    destruct (cell (grid st) r c) eqn:E; [|done].
    apply Hcells in E. lia. }
  destruct (firstFit (grid st) (ww it.2) (wh it.2)) as [[x y]|] eqn:E.
  2:{ rewrite (firstFit_None _ _ _ E) in Hfit by lia. done. }
  apply firstFit_Some in E as Hscan. destruct Hscan as (Hy & _ & Hmin).
  specialize (Hmin 0 B HB Hfit). unfold scanLe in Hmin.
  intros k q Hq.
  assert (0 ≤ wy q ∧ wy q + wh q ≤ B + wh it.2 + totalHeight its); [|lia].
  revert k q Hq. apply IH; [lia| | |done|lia].
  - intros r c. unfold step. rewrite E. simpl. rewrite occupy_spec.
    intros [[Hr _]|Hold]; [simpl in Hr; lia|].
    apply Hcells in Hold. lia.
  - intros k q. unfold step. rewrite E. simpl.
    destruct (decide (it.1 = k)) as [<-|Hne].
    + rewrite lookup_insert_eq. intros [= <-]. simpl. lia.
    + rewrite lookup_insert_ne by done. intros Hq. apply Hent in Hq. lia.
Qed.

#[local] Instance before_Transitive : Transitive before.
Proof.
  intros a b c. rewrite !before_scanLe. unfold scanLe. lia.
Qed.

(** Among items that come from one layout and have pairwise distinct
    positions, the processing order admits one arrangement only. *)
Lemma items_Permutation layouts visibleKeys visibleKeys' :
  visibleKeys ≡ₚ visibleKeys' →
  (∀ k1 k2 p1 p2, k1 ∈ visibleKeys → k2 ∈ visibleKeys → k1 ≠ k2 →
     layouts !! k1 = Some p1 → layouts !! k2 = Some p2 →
     (wx p1, wy p1) ≠ (wx p2, wy p2)) →
  items layouts visibleKeys = items layouts visibleKeys'.
Proof.
  intros Hperm Hdist.
  apply (Sorted_unique_strong before); [|apply items_Sorted..|].
  - intros [k1 p1] [k2 p2] H1 H2 Hb1 Hb2.
    apply elem_of_items in H1 as [Hk1 Hp1].
    apply elem_of_items in H2 as [Hk2 Hp2]. rewrite <- Hperm in Hk2.
    apply before_scanLe in Hb1, Hb2. unfold scanLe in *. simpl in *.
    destruct (decide (k1 = k2)) as [->|Hne]; [congruence|].
    destruct (Hdist k1 k2 p1 p2 Hk1 Hk2 Hne Hp1 Hp2). f_equal; lia.
  - unfold items. rewrite !sortItems_Permutation. unfold unsortedItems.
    by rewrite Hperm.
Qed.

End CompactMoreFacts.

Module CompactProps.
Import Compact CompactSpec CompactFacts ItemFacts RunFacts CompactMoreFacts.

(** X8. The widget processed first, the topmost and then leftmost of the
    visible widgets, is always moved to column 0, row 0, whatever its size
    (visible sequence without repetitions). *)
Theorem compact_first_at_origin (layouts : WidgetLayoutConfig)
    (visibleKeys : list string) (it : Item) (post : list Item) :
  NoDup visibleKeys →
  items layouts visibleKeys = it :: post →
  compactLayoutsUtil layouts visibleKeys !! it.1
  = Some (mkLayout 0 0 (ww it.2) (wh it.2)).
Proof.
  intros Hnd Hitems.
  pose proof (items_keys_NoDup layouts visibleKeys Hnd) as Hkeys.
  unfold compactLayoutsUtil. rewrite Hitems in *. simpl.
  rewrite fmap_cons in Hkeys. apply NoDup_cons in Hkeys as [Hit _].
  rewrite run_lookup_other by done.
  rewrite step_chosen; simpl. by rewrite lookup_insert_eq, chosen_initial.
Qed.

Lemma compact_first_at_origin_witness :
  NoDup ["B"]
  ∧ items exampleLayout ["B"] = [("B", mkLayout 5 3 3 2)]
  ∧ compactLayoutsUtil exampleLayout ["B"] !! "B" = Some (mkLayout 0 0 3 2).
Proof.
  assert (NoDup ["B"]) as Hnd by apply NoDup_singleton.
  assert (items exampleLayout ["B"] = [("B", mkLayout 5 3 3 2)]) as Hitems
    by (vm_compute; reflexivity).
  split; [exact Hnd|]. split; [exact Hitems|].
  apply (compact_first_at_origin exampleLayout ["B"] ("B", mkLayout 5 3 3 2) []
           Hnd Hitems).
Defined.

(** X9. When every visible widget is at most 12 wide and at least 1 high and
    the heights of the visible widgets add up to at most 100, every widget
    of the compacted layout ends above the row that is the sum of those
    heights. *)
Theorem compact_height_bound (layouts : WidgetLayoutConfig)
    (visibleKeys : list string) :
  (∀ k p, k ∈ visibleKeys → layouts !! k = Some p →
     ww p ≤ GRID_COLS ∧ 1 ≤ wh p) →
  totalHeight (items layouts visibleKeys) ≤ 100 →
  ∀ k q, compactLayoutsUtil layouts visibleKeys !! k = Some q →
    0 ≤ wy q ∧ wy q + wh q ≤ totalHeight (items layouts visibleKeys).
Proof.
  intros Hsz Hsum k q Hq.
  assert (0 ≤ wy q
          ∧ wy q + wh q ≤ 0 + totalHeight (items layouts visibleKeys)); [|lia].
  revert k q Hq. unfold compactLayoutsUtil.
  apply run_height_bound; [done| | | |lia].
  - intros r c. simpl. by rewrite cell_empty.
  - intros k q. simpl. by rewrite lookup_empty.
  - apply Forall_forall. intros [k p] Hin.
    apply elem_of_items in Hin as [Hk Hp]. by apply (Hsz k).
Qed.

Lemma compact_height_bound_witness :
  totalHeight (items exampleLayout ["A"; "B"]) ≤ 100
  ∧ 0 ≤ 0 ∧ 0 + 2 ≤ totalHeight (items exampleLayout ["A"; "B"]).
Proof.
  assert (totalHeight (items exampleLayout ["A"; "B"]) ≤ 100) as Hsum
    by (vm_compute; discriminate).
  split; [exact Hsum|].
  apply (compact_height_bound exampleLayout ["A"; "B"]) with (k := "B")
                                                            (q := mkLayout 3 0 3 2);
    [|exact Hsum|vm_compute; reflexivity].
  intros k p Hk. unfold exampleLayout.
  destruct (decide (k = "A")) as [->|HA].
  { rewrite lookup_insert_eq. intros [= <-]. unfold GRID_COLS; simpl; lia. }
  rewrite lookup_insert_ne by done.
  destruct (decide (k = "B")) as [->|HB].
  { rewrite lookup_singleton_eq. intros [= <-]. unfold GRID_COLS; simpl; lia. }
  by rewrite lookup_singleton_ne.
Defined.

(** X10. When the visible widgets have pairwise distinct positions in the
    input layout, the result of [compactLayoutsUtil] does not depend on the
    order in which [visibleKeys] lists them. *)
Theorem compact_order_independent (layouts : WidgetLayoutConfig)
    (visibleKeys visibleKeys' : list string) :
  visibleKeys ≡ₚ visibleKeys' →
  (∀ k1 k2 p1 p2, k1 ∈ visibleKeys → k2 ∈ visibleKeys → k1 ≠ k2 →
     layouts !! k1 = Some p1 → layouts !! k2 = Some p2 →
     (wx p1, wy p1) ≠ (wx p2, wy p2)) →
  compactLayoutsUtil layouts visibleKeys
  = compactLayoutsUtil layouts visibleKeys'.
Proof.
  intros Hperm Hdist. unfold compactLayoutsUtil.
  by rewrite (items_Permutation layouts visibleKeys visibleKeys').
Qed.

Lemma compact_order_independent_witness :
  ["A"; "B"] ≡ₚ ["B"; "A"]
  ∧ compactLayoutsUtil exampleLayout ["A"; "B"]
    = compactLayoutsUtil exampleLayout ["B"; "A"].
Proof.
  assert (["A"; "B"] ≡ₚ ["B"; "A"]) as Hperm by apply Permutation_swap.
  split; [exact Hperm|].
  apply (compact_order_independent exampleLayout ["A"; "B"] ["B"; "A"] Hperm).
  intros k1 k2 p1 p2 Hk1 Hk2 Hne.
  assert (∀ k p, k ∈ ["A"; "B"] → exampleLayout !! k = Some p →
            (k = "A" ∧ p = mkLayout 0 0 3 2) ∨ (k = "B" ∧ p = mkLayout 5 3 3 2))
    as Hcases.
  { intros k p Hk. apply elem_of_cons in Hk as [->|Hk].
    - vm_compute. intros [= <-]. by left.
    - apply list_elem_of_singleton in Hk as ->.
      vm_compute. intros [= <-]. by right. }
  intros Hp1 Hp2.
  destruct (Hcases k1 p1 Hk1 Hp1) as [[-> ->]|[-> ->]];
    destruct (Hcases k2 p2 Hk2 Hp2) as [[-> ->]|[-> ->]];
    simpl; congruence.
Defined.

(** With equal positions the order of [visibleKeys] does matter: the sort
    is stable and keeps tied widgets in the order of the list. *)
Example compact_ties_follow_visibleKeys :
  compactLayoutsUtil {[ "A" := mkLayout 0 0 3 2; "B" := mkLayout 0 0 3 2 ]}
                     ["A"; "B"] !! "A" = Some (mkLayout 0 0 3 2)
  ∧ compactLayoutsUtil {[ "A" := mkLayout 0 0 3 2; "B" := mkLayout 0 0 3 2 ]}
                       ["B"; "A"] !! "A" = Some (mkLayout 3 0 3 2).
Proof. split; vm_compute; reflexivity. Qed.

End CompactProps.

Module FindNextProps.
Import FindNext FindNextSpec FindNextFacts.

(** X11. For a width of at most 12 the position [findNextGridPosition]
    returns keeps the widget within the grid, on the fallback as well:
    0 <= x, x + w <= 12 and y >= 0. *)
Theorem findNext_within_grid (layout : WidgetLayoutConfig) (w h : Z) :
  w ≤ COLS →
  let p := findNextGridPosition layout w h in
  0 ≤ px p ∧ px p + w ≤ COLS ∧ 0 ≤ py p.
Proof.
  intros Hw p. unfold p, findNextGridPosition.
  destruct (firstFit layout w h) as [q|] eqn:E; simpl.
  - apply findNext_firstFit_Some in E as [([? ?] & ? & _) _].
    unfold GRID_COLS, COLS in *. lia.
  - lia.
Qed.

Lemma findNext_within_grid_witness :
  3 ≤ COLS
  ∧ 0 ≤ px (findNextGridPosition wallLayout 3 2)
  ∧ px (findNextGridPosition wallLayout 3 2) + 3 ≤ COLS
  ∧ 0 ≤ py (findNextGridPosition wallLayout 3 2).
Proof.
  assert (3 ≤ COLS) as Hw by (unfold COLS; lia).
  split; [exact Hw|]. apply (findNext_within_grid wallLayout 3 2 Hw).
Defined.

(** X12. When a position fits in the first hundred rows, giving a widget
    the position [findNextGridPosition] returns keeps a layout free of
    overlaps: no other widget of the layout intersects the new footprint. *)
Theorem findNext_insert_no_overlap (layout : WidgetLayoutConfig)
    (k : string) (w h : Z) :
  noOverlap layout →
  (∃ x y, fitsAt layout w h x y) →
  let p := findNextGridPosition layout w h in
  noOverlap (<[k := mkLayout (px p) (py p) w h]> layout).
Proof.
  intros Hno (x0 & y0 & Hfit0) p. unfold p, findNextGridPosition.
  destruct (firstFit layout w h) as [q|] eqn:E; simpl.
  2:{ by apply (findNext_firstFit_None _ _ _ E) in Hfit0. }
  apply findNext_firstFit_Some in E as [(_ & _ & Hfree) _].
  assert (∀ k' p', layout !! k' = Some p' →
            ¬ intersects (mkLayout (px q) (py q) w h) p') as Hnew.
  { intros k' p' Hp' (r & c & Hin & Hin').
    apply (Hfree r c Hin). by exists k', p'. }
  intros k1 k2 p1 p2 Hne.
  destruct (decide (k = k1)) as [<-|Hne1];
    destruct (decide (k = k2)) as [<-|Hne2]; [done|..].
  - rewrite lookup_insert_eq, lookup_insert_ne by done.
    intros [= <-] Hp2. by eapply Hnew.
  - rewrite lookup_insert_eq, lookup_insert_ne by done.
    intros Hp1 [= <-] (r & c & Hin & Hin').
    eapply Hnew; [exact Hp1|]. by exists r, c.
  - rewrite !lookup_insert_ne by done. by apply Hno.
Qed.

Lemma findNext_insert_no_overlap_witness :
  noOverlap barLayout ∧ fitsAt barLayout 3 2 0 2
  ∧ noOverlap (<["B" := mkLayout 0 2 3 2]> barLayout).
Proof.
  assert (noOverlap barLayout) as Hno.
  { intros k1 k2 p1 p2 Hne. unfold barLayout.
    destruct (decide (k1 = "A")) as [->|H1];
      [|by rewrite lookup_singleton_ne].
    destruct (decide (k2 = "A")) as [->|H2]; [done|].
    by rewrite (lookup_singleton_ne "A" k2). }
  assert (fitsAt barLayout 3 2 0 2) as Hfit.
  { apply fitsAt_allFree. vm_compute. repeat split; discriminate. }
  split; [exact Hno|]. split; [exact Hfit|].
  apply (findNext_insert_no_overlap barLayout "B" 3 2 Hno). eauto.
Defined.

(** On the fallback the new widget can lie across an existing one. *)
Example findNext_fallback_overlaps :
  findNextGridPosition wallLayout 3 2 = mkPosition 0 2
  ∧ intersects (mkLayout 0 2 3 2) (mkLayout 0 0 12 100).
Proof.
  split; [vm_compute; reflexivity|].
  exists 2, 0. unfold inFootprint; simpl. lia.
Qed.

End FindNextProps.

Module DashboardSaveProps.
Import Dashboard DashboardFacts.
Import Compact CompactSpec RunFacts CompactMoreFacts.

Lemma save_fold_widths vis pending acc :
  (∀ k p, finalLayouts acc !! k = Some p → ww p ≤ GRID_COLS) →
  ∀ k p, finalLayouts (foldl (saveStep vis) acc pending) !! k = Some p →
         ww p ≤ GRID_COLS.
Proof.
  revert acc. induction pending as [|k0 pending IH]; intros acc Hw; simpl.
  - done.
  - apply IH. intros k p. unfold saveStep. case_bool_decide; simpl.
    + destruct (decide (k0 = k)) as [<-|Hne].
      * by rewrite lookup_delete_eq.
      * rewrite lookup_delete_ne by done. apply Hw.
    + destruct (decide (k0 = k)) as [<-|Hne].
      * rewrite lookup_insert_eq. intros [= <-]. unfold GRID_COLS. simpl. lia.
      * rewrite lookup_insert_ne by done. apply Hw.
Qed.

(** X13. What [handleSaveLayout] saves as the layout: a widget marked to be
    added has an entry three columns wide and two rows high; a widget marked
    for removal has none; a visible widget that is not marked keeps an entry
    of its width and height; and every entry belongs to a widget of the
    saved visible list. *)
Theorem save_layout_entries (visible order : list string)
    (layouts : WidgetLayoutConfig) (pending : list string) :
  let saved := savedPreferences visible order layouts pending in
  (∀ k, k ∈ pending → k ∉ visible →
     ∃ q, finalLayouts saved !! k = Some q ∧ ww q = 3 ∧ wh q = 2)
  ∧ (∀ k, k ∈ pending → k ∈ visible → finalLayouts saved !! k = None)
  ∧ (∀ k p, k ∉ pending → k ∈ visible → layouts !! k = Some p →
     ∃ q, finalLayouts saved !! k = Some q ∧ ww q = ww p ∧ wh q = wh p)
  ∧ (∀ k, is_Some (finalLayouts saved !! k) → k ∈ finalVisible saved).
Proof.
  intros saved. unfold saved, savedPreferences; simpl.
  set (acc := foldl (saveStep visible) (mkFinal visible order layouts) pending).
  assert (∀ k p, finalLayouts acc !! k = Some p → k ∈ finalVisible acc →
            ∃ q, compactLayoutsUtil (finalLayouts acc) (finalVisible acc) !! k
                 = Some q ∧ ww q = ww p ∧ wh q = wh p) as Hkeep.
  { intros k p Hp Hk.
    destruct (proj2 (compact_lookup_is_Some (finalLayouts acc)
                       (finalVisible acc) k)) as [q Hq]; [eauto|].
    exists q. split; [done|].
    apply run_keeps_size in Hq as (p' & Hp' & ? & ?).
    rewrite Hp in Hp'. by injection Hp' as <-. }
  split; [|split; [|split]].
  - intros k Hp Hv.
    destruct (save_fold_layouts visible pending
                (mkFinal visible order layouts) k) as (_ & H2 & _).
    destruct (H2 Hp Hv) as (q0 & Hq0 & Hw & Hh).
    destruct (Hkeep k q0 Hq0) as (q & Hq & ? & ?).
    { apply save_fold_visible. by left. }
    exists q. split; [done|]. split; congruence.
  - intros k Hp Hv.
    destruct (save_fold_layouts visible pending
                (mkFinal visible order layouts) k) as (H1 & _ & _).
    apply eq_None_not_Some. rewrite compact_lookup_is_Some.
    fold acc in H1. rewrite (H1 Hp Hv). intros [_ [? ?]]. done.
  - intros k p Hp Hv Hl.
    destruct (save_fold_layouts visible pending
                (mkFinal visible order layouts) k) as (_ & _ & H3).
    apply Hkeep.
    + fold acc in H3. by rewrite (H3 Hp).
    + apply save_fold_visible. by right.
  - intros k Hk. by apply compact_lookup_is_Some in Hk as [? _].
Qed.

Lemma save_layout_entries_witness :
  "contacts" ∈ ["contacts"] ∧ ("contacts" ∉ ["A"; "B"])
  ∧ ∃ q, finalLayouts (savedPreferences ["A"; "B"] ["A"; "B"] exampleLayout
                         ["contacts"]) !! "contacts" = Some q
         ∧ ww q = 3 ∧ wh q = 2.
Proof.
  assert ("contacts" ∈ ["contacts"]) as Hp by by left.
  assert ("contacts" ∉ ["A"; "B"]) as Hv.
  { intros Hin. apply elem_of_cons in Hin as [Hin|Hin]; [discriminate Hin|].
    apply list_elem_of_singleton in Hin. discriminate Hin. }
  split; [exact Hp|]. split; [exact Hv|].
  apply (proj1 (save_layout_entries ["A"; "B"] ["A"; "B"] exampleLayout
                  ["contacts"]) "contacts" Hp Hv).
Defined.

(** X14. If every placement of the state is at most 12 columns wide, every
    placement [handleSaveLayout] saves lies within the grid: 0 <= x,
    x + w <= 12 and y >= 0. *)
Theorem save_layout_contained (visible order : list string)
    (layouts : WidgetLayoutConfig) (pending : list string) :
  (∀ k p, layouts !! k = Some p → ww p ≤ GRID_COLS) →
  ∀ k q,
    finalLayouts (savedPreferences visible order layouts pending) !! k = Some q →
    0 ≤ wx q ∧ wx q + ww q ≤ GRID_COLS ∧ 0 ≤ wy q.
Proof.
  intros Hw. unfold savedPreferences; simpl.
  set (acc := foldl (saveStep visible) (mkFinal visible order layouts) pending).
  unfold compactLayoutsUtil.
  apply (run_invariant (λ st, ∀ k q, compacted st !! k = Some q → contained q)
                       (λ it, ww it.2 ≤ GRID_COLS)).
  - intros st it Hst Hit. by apply step_contained.
  - intros k q. simpl. by rewrite lookup_empty.
  - apply Forall_forall. intros [k p] Hin. simpl.
    apply ItemFacts.elem_of_items in Hin as [_ Hp].
    by apply (save_fold_widths visible pending
                (mkFinal visible order layouts) Hw k p).
Qed.

Lemma save_layout_contained_witness :
  (∀ k p, barLayout !! k = Some p → ww p ≤ GRID_COLS)
  ∧ 0 ≤ 0 ∧ 0 + 3 ≤ GRID_COLS ∧ 0 ≤ 2.
Proof.
  assert (∀ k p, barLayout !! k = Some p → ww p ≤ GRID_COLS) as Hw.
  { intros k p. unfold barLayout.
    destruct (decide (k = "A")) as [->|HA].
    - rewrite lookup_singleton_eq. intros [= <-]. unfold GRID_COLS; simpl; lia.
    - by rewrite lookup_singleton_ne. }
  split; [exact Hw|].
  apply (save_layout_contained ["A"] ["A"] barLayout ["B"] Hw "B"
           (mkLayout 0 2 3 2)).
  vm_compute. reflexivity.
Defined.

(** X15. Leaving the customize mode by [handleCancelCustomize] undoes
    whatever was dragged, resized or toggled since
    [handleEnterCustomizeMode]: the visible list, the order list and the
    layout are those of the moment of entering, no change is pending and the
    mode is off. *)
Theorem customize_cancel_restores (st : DashState) (edits : list Edit) :
  let st' := handleCancelCustomize
               (foldl applyEdit (handleEnterCustomizeMode st) edits) in
  visibleWidgets st' = visibleWidgets st
  ∧ widgetOrder st' = widgetOrder st
  ∧ widgetLayouts st' = widgetLayouts st
  ∧ pendingWidgetChanges st' = []
  ∧ originalState st' = None
  ∧ isResizeMode st' = false.
Proof.
  intros st'. unfold st', handleCancelCustomize.
  destruct (edits_frame (handleEnterCustomizeMode st) edits) as (_ & _ & -> & _).
  done.
Qed.

End DashboardSaveProps.

(** * The summary queries *)

Module QueriesProps.
Import Queries.

Lemma length_filter_cons {A} (f : A → bool) (a : A) (l : list A) :
  length (List.filter f (a :: l))
  = ((if f a then 1 else 0) + length (List.filter f l))%nat.
Proof. simpl. by destruct (f a). Qed.

Section Contacts.

Variable toLowerCase : string → string.

(** Each contact falls in exactly one of the four classes. *)
Lemma contact_one_class (c : Contact) :
  ((if sourceIs toLowerCase "website" c then 1 else 0)
   + (if sourceIs toLowerCase "referral" c then 1 else 0)
   + (if sourceIs toLowerCase "linkedin" c then 1 else 0)
   + (if negb (bool_decide (sourceOrEmpty toLowerCase c
                            ∈ ["website"; "referral"; "linkedin"]))
      then 1 else 0) = 1)%nat.
Proof.
  unfold sourceIs, sourceOrEmpty. destruct (contact_source c) as [s|]; simpl.
  - set (t := toLowerCase s).
    assert ((if bool_decide (t = EmptyString) then EmptyString else t) = t)
      as -> by (case_bool_decide; congruence).
    destruct (decide (t = "website")) as [Hw|Hw].
    { rewrite Hw. reflexivity. }
    destruct (decide (t = "referral")) as [Hr|Hr].
    { rewrite Hr. reflexivity. }
    destruct (decide (t = "linkedin")) as [Hl|Hl].
    { rewrite Hl. reflexivity. }
    rewrite !bool_decide_eq_false_2; [done|..|done|done|done].
    rewrite !elem_of_cons, elem_of_nil. tauto.
  - reflexivity.
Qed.

(** X16. The four source counts of the contacts summary add up to the total:
    every contact is counted under exactly one of website, referral,
    linkedin and other, a contact without a source under other. *)
Theorem contacts_by_source_partition (contacts : list Contact) :
  let r := contactsSummary toLowerCase contacts in
  (website r + referral r + linkedin r + other r = total r)%nat.
Proof.
  unfold contactsSummary; simpl.
  induction contacts as [|c contacts IH]; [done|].
  rewrite !length_filter_cons. simpl length.
  pose proof (contact_one_class c) as Hc. lia.
Qed.

End Contacts.

(** Each deal is active, won, lost or dropped, and one of them only. *)
Lemma deal_one_class (d : Deal) :
  ((if isActive d then 1 else 0) + (if stageIs "Won" d then 1 else 0)
   + (if stageIs "Lost" d then 1 else 0)
   + (if stageIs "Dropped" d then 1 else 0) = 1)%nat.
Proof.
  unfold isActive, stageIs.
  destruct (decide (stage d = Some "Won")) as [Hw|Hw].
  { rewrite Hw. reflexivity. }
  destruct (decide (stage d = Some "Lost")) as [Hl|Hl].
  { rewrite Hl. reflexivity. }
  destruct (decide (stage d = Some "Dropped")) as [Hd|Hd].
  { rewrite Hd. reflexivity. }
  rewrite !bool_decide_eq_false_2; [done|done|done|done|].
  rewrite !elem_of_cons, elem_of_nil. tauto.
Qed.

Lemma deal_open_stage (d : Deal) :
  ((if stageIs "RFQ" d then 1 else 0) + (if stageIs "Offered" d then 1 else 0)
   ≤ (if isActive d then 1 else 0))%nat.
Proof.
  unfold isActive, stageIs.
  destruct (decide (stage d = Some "RFQ")) as [Hr|Hr].
  { rewrite Hr. vm_compute. lia. }
  destruct (decide (stage d = Some "Offered")) as [Ho|Ho].
  { rewrite Ho. vm_compute. lia. }
  rewrite !bool_decide_eq_false_2 by done. simpl. lia.
Qed.

(** X17. In the deals summary the deals of the user that are not counted as
    active, won or lost are exactly those in stage Dropped, so
    active + won + lost never exceeds the total; and the RFQ and Offered
    deals are among the active ones. *)
Theorem deals_counts_consistent (userId : string) (data : list Deal) :
  let r := dealsSummary userId data in
  let dropped :=
    length (List.filter (stageIs "Dropped")
              (List.filter (λ d, bool_decide (created_by d = Some userId)
                                 || bool_decide (lead_owner d = Some userId))
                           data)) in
  (active r + won r + lost r + dropped = dealsTotal r)%nat
  ∧ (rfq r + offered r ≤ active r)%nat.
Proof.
  unfold dealsSummary; simpl.
  induction (List.filter _ data) as [|d userDeals [IH1 IH2]]; [done|].
  rewrite !length_filter_cons. simpl length.
  pose proof (deal_one_class d). pose proof (deal_open_stage d). lia.
Qed.

End QueriesProps.

Module DashboardLoadProps.
Import Dashboard DashboardFacts.

Lemma defaultVisibleWidgets_sub (DEFAULT_WIDGETS : list WidgetDef) k :
  k ∈ defaultVisibleWidgets DEFAULT_WIDGETS →
  k ∈ defaultWidgetKeys DEFAULT_WIDGETS.
Proof.
  unfold defaultVisibleWidgets. rewrite elem_of_list_filter. tauto.
Qed.

Lemma list_filter_none {A} (f : A → bool) (l : list A) :
  (∀ x, x ∈ l → f x = false) → List.filter f l = [].
Proof.
  induction l as [|a l IH]; simpl; intros H; [done|].
  rewrite (H a) by by left. apply IH. intros x Hx. apply H. by right.
Qed.

(** X18. Without stored preferences and with a widget table whose keys are
    distinct, the load effect shows exactly the widgets the table marks
    visible, and the order list is the table's own order. *)
Theorem load_defaults (DEFAULT_WIDGETS : list WidgetDef)
    (loadedLayouts : WidgetLayoutConfig) :
  NoDup (defaultWidgetKeys DEFAULT_WIDGETS) →
  let r := loadPreferences DEFAULT_WIDGETS None None loadedLayouts in
  nextVisible r = defaultVisibleWidgets DEFAULT_WIDGETS
  ∧ nextOrder r = defaultWidgetKeys DEFAULT_WIDGETS.
Proof.
  intros Hnd r. unfold r, loadPreferences; simpl.
  assert (sanitizeKeys (defaultWidgetKeys DEFAULT_WIDGETS)
            (defaultVisibleWidgets DEFAULT_WIDGETS)
          = defaultVisibleWidgets DEFAULT_WIDGETS) as Hv.
  { apply sanitizeKeys_clean; [|apply defaultVisibleWidgets_sub].
    unfold defaultVisibleWidgets. by apply NoDup_list_filter. }
  assert (sanitizeKeys (defaultWidgetKeys DEFAULT_WIDGETS)
            (defaultWidgetKeys DEFAULT_WIDGETS)
          = defaultWidgetKeys DEFAULT_WIDGETS) as Ho
    by (by apply sanitizeKeys_clean).
  rewrite Hv, Ho. split; [done|].
  assert (List.filter
            (λ k, negb (bool_decide (k ∈ defaultWidgetKeys DEFAULT_WIDGETS)))
            (defaultVisibleWidgets DEFAULT_WIDGETS) = []) as ->.
  { apply list_filter_none. intros k Hk.
    apply defaultVisibleWidgets_sub in Hk.
    by rewrite bool_decide_eq_true_2. }
  by rewrite app_nil_r.
Qed.

Lemma load_defaults_witness :
  NoDup (defaultWidgetKeys [mkWidgetDef "leads" true; mkWidgetDef "deals" false])
  ∧ nextVisible (loadPreferences
                   [mkWidgetDef "leads" true; mkWidgetDef "deals" false]
                   None None exampleLayout)
    = defaultVisibleWidgets [mkWidgetDef "leads" true; mkWidgetDef "deals" false].
Proof.
  assert (NoDup (defaultWidgetKeys
                   [mkWidgetDef "leads" true; mkWidgetDef "deals" false])) as Hnd.
  { apply NoDup_cons. split; [|apply NoDup_singleton].
    intros Hin. apply list_elem_of_singleton in Hin. discriminate Hin. }
  split; [exact Hnd|].
  apply (load_defaults [mkWidgetDef "leads" true; mkWidgetDef "deals" false]
           exampleLayout Hnd).
Defined.

End DashboardLoadProps.

(** * The load effect on the stored values *)

Module DashboardRawProps.
Import Loader Dashboard DashboardFacts DashboardRaw.

Lemma sanitize_fold_raw allowed elements st :
  foldl (sanitizeStepRaw allowed) st elements
  = foldl (sanitizeStep allowed) st (stringsOf elements).
Proof.
  revert st. induction elements as [|j elements IH]; intros st; simpl; [done|].
  destruct j; simpl; by rewrite IH.
Qed.

Lemma sanitizeKeysRaw_array defaultKeys elements :
  sanitizeKeysRaw defaultKeys (JArray elements)
  = Return (sanitizeKeys defaultKeys (stringsOf elements)).
Proof. unfold sanitizeKeysRaw, sanitizeKeys. by rewrite sanitize_fold_raw. Qed.

Lemma stringsOf_strings (keys : list string) :
  stringsOf (JString <$> keys) = keys.
Proof.
  induction keys as [|k keys IH]; [done|].
  unfold stringsOf in *. rewrite fmap_cons. simpl. by f_equal.
Qed.

Lemma iterable_dec stored : iterable stored ∨ ¬ iterable stored.
Proof.
  unfold iterable. destruct (truthy stored) eqn:Ht; [|by left; left].
  destruct stored as [[| | | |elements|]|];
    try (right; intros [?|[? ?]]; done).
  left. right. eauto.
Qed.

(** What [sanitizeKeys] makes of a stored value or its fallback. *)
Lemma sanitizeKeysRaw_storedOr defaultKeys stored fallback :
  iterable stored →
  sanitizeKeysRaw defaultKeys (storedOr stored fallback)
  = Return (sanitizeKeys defaultKeys
              (match typedKeys stored with Some v => v | None => fallback end)).
Proof.
  unfold storedOr, typedKeys. intros [Hf|[elements ->]].
  - rewrite Hf. by rewrite sanitizeKeysRaw_array, stringsOf_strings.
  - simpl. apply sanitizeKeysRaw_array.
Qed.

Lemma sanitizeKeysRaw_not_iterable defaultKeys stored fallback :
  ¬ iterable stored →
  ∃ e, sanitizeKeysRaw defaultKeys (storedOr stored fallback) = Throw e.
Proof.
  unfold iterable, storedOr. intros Hno.
  destruct (truthy stored) eqn:Ht; [|destruct Hno; by left].
  destruct stored as [[| | | |elements|]|]; simpl; eauto.
  destruct Hno. right. eauto.
Qed.

(** On iterable stored values the effect is the typed effect on their
    strings. *)
Lemma loadEffect_typed DEFAULT_WIDGETS dashboardPrefs loadedLayouts :
  iterable (visible_widgets <$> dashboardPrefs) →
  iterable (card_order <$> dashboardPrefs) →
  loadEffect DEFAULT_WIDGETS dashboardPrefs loadedLayouts
  = Return (loadPreferences DEFAULT_WIDGETS
              (typedKeys (visible_widgets <$> dashboardPrefs))
              (typedKeys (card_order <$> dashboardPrefs)) loadedLayouts).
Proof.
  intros Hv Ho. unfold loadEffect.
  rewrite (sanitizeKeysRaw_storedOr _ _ _ Hv); simpl.
  rewrite (sanitizeKeysRaw_storedOr _ _ _ Ho); simpl.
  done.
Qed.

(** X3. When each of the stored [visible_widgets] and [card_order] is
    absent, falsy or an array, the load effect completes: the visible list
    and the order list have no repetitions, every visible widget occurs in
    the order list, the order list holds default keys only and is the
    sanitized stored order followed by the visible widgets missing from it,
    in their visible order, and every widget of the compacted layout is
    visible. When one of the two stored values is truthy and not an array,
    the effect throws. *)
Theorem load_effect_consistent (DEFAULT_WIDGETS : list WidgetDef)
    (dashboardPrefs : option DashboardPrefs)
    (loadedLayouts : WidgetLayoutConfig) :
  let defaultKeys := defaultWidgetKeys DEFAULT_WIDGETS in
  let storedVisible := visible_widgets <$> dashboardPrefs in
  let storedOrder := card_order <$> dashboardPrefs in
  (iterable storedVisible → iterable storedOrder →
     ∃ r base,
       loadEffect DEFAULT_WIDGETS dashboardPrefs loadedLayouts = Return r
       ∧ NoDup (nextVisible r) ∧ NoDup (nextOrder r)
       ∧ (∀ k, k ∈ nextVisible r → k ∈ nextOrder r)
       ∧ (∀ k, k ∈ nextOrder r → k ∈ defaultKeys)
       ∧ sanitizeKeysRaw defaultKeys (storedOr storedOrder defaultKeys)
         = Return base
       ∧ nextOrder r
         = base ++ List.filter (λ k, negb (bool_decide (k ∈ base)))
                               (nextVisible r)
       ∧ (∀ k, is_Some (compactedLayouts r !! k) → k ∈ nextVisible r))
  ∧ (¬ (iterable storedVisible ∧ iterable storedOrder) →
     ∃ e, loadEffect DEFAULT_WIDGETS dashboardPrefs loadedLayouts = Throw e).
Proof.
  intros defaultKeys storedVisible storedOrder. split.
  - intros Hv Ho.
    exists (loadPreferences DEFAULT_WIDGETS (typedKeys storedVisible)
              (typedKeys storedOrder) loadedLayouts).
    exists (sanitizeKeys defaultKeys
              (match typedKeys storedOrder with
               | Some v => v | None => defaultKeys end)).
    destruct (DashboardProps.load_lists_consistent DEFAULT_WIDGETS
                (typedKeys storedVisible) (typedKeys storedOrder) loadedLayouts)
      as (H1 & H2 & H3 & H4 & H5).
    split; [by apply loadEffect_typed|].
    split; [done|]. split; [done|]. split; [done|]. split; [done|].
    split; [by apply sanitizeKeysRaw_storedOr|]. split; [done|done].
  - intros Hno. unfold loadEffect. fold defaultKeys storedVisible storedOrder.
    destruct (iterable_dec storedVisible) as [Hv|Hv].
    + rewrite (sanitizeKeysRaw_storedOr _ _ _ Hv); simpl.
      destruct (sanitizeKeysRaw_not_iterable defaultKeys storedOrder defaultKeys)
        as [e He]; [tauto|].
      rewrite He. simpl. eauto.
    + destruct (sanitizeKeysRaw_not_iterable defaultKeys storedVisible
                  (defaultVisibleWidgets DEFAULT_WIDGETS) Hv) as [e He].
      rewrite He. simpl. eauto.
Qed.

Lemma load_effect_consistent_witness :
  iterable (Some (JArray [JString "deals"; JNumber 1; JString "deals"]))
  ∧ iterable (Some JNull)
  ∧ ∃ r,
      loadEffect [mkWidgetDef "leads" true; mkWidgetDef "deals" false]
        (Some (mkPrefs (JArray [JString "deals"; JNumber 1; JString "deals"])
                       JNull JNull))
        exampleLayout = Return r
      ∧ nextVisible r = ["deals"] ∧ nextOrder r = ["leads"; "deals"].
Proof.
  assert (iterable (Some (JArray [JString "deals"; JNumber 1; JString "deals"])))
    as Hv by (right; eauto).
  assert (iterable (Some JNull)) as Ho by (by left).
  split; [exact Hv|]. split; [exact Ho|].
  destruct (proj1 (load_effect_consistent
                     [mkWidgetDef "leads" true; mkWidgetDef "deals" false]
                     (Some (mkPrefs (JArray [JString "deals"; JNumber 1;
                                             JString "deals"]) JNull JNull))
                     exampleLayout) Hv Ho) as (r & base & Hr & _).
  exists r. split; [exact Hr|].
  vm_compute in Hr. injection Hr as <-. split; reflexivity.
Defined.

(** A stored string is truthy and has no [forEach]. *)
Example load_effect_throws_on_string :
  loadEffect [mkWidgetDef "leads" true]
    (Some (mkPrefs (JString "leads") JNull JNull)) exampleLayout
  = Throw "TypeError: keys.forEach is not a function".
Proof. reflexivity. Qed.

End DashboardRawProps.

(** * Fixed points of compactLayoutsUtil *)

Module PackedFacts.
Import Compact CompactSpec CompactFacts ItemFacts RunFacts CompactMoreFacts.
Import PackedSpec.

Lemma allScanned_app st its its' :
  allScanned st (its ++ its')
  = allScanned st its && allScanned (foldl step st its) its'.
Proof.
  revert st. induction its as [|it its IH]; intros st; simpl; [done|].
  by rewrite IH, andb_assoc.
Qed.

Lemma scanLe_antisym x y x' y' :
  scanLe x y x' y' → scanLe x' y' x y → x = x' ∧ y = y'.
Proof. unfold scanLe. lia. Qed.

(** A slot is free of the placements of [pre] exactly when [canPlace]
    accepts it on a grid that holds those placements and nothing else. *)
Lemma freeSlot_canPlace_state (layout : WidgetLayoutConfig) (pre : list Item)
    st q :
  gridExact st →
  (∀ k, is_Some (compacted st !! k) → k ∈ pre.*1) →
  (∀ it, it ∈ pre → layout !! it.1 = compacted st !! it.1) →
  freeSlot layout pre q
  ↔ 0 ≤ wy q ∧ canPlace (grid st) (wx q) (wy q) (ww q) (wh q) = true.
Proof.
  intros Hex Hdom Hsame.
  rewrite canPlace_spec. destruct q as [x y w h]; simpl.
  unfold freeSlot; simpl. split.
  - intros (Hcols & Hy & Hfree). split; [done|]. split; [done|].
    intros r c Hin. destruct (cell (grid st) r c) eqn:Hcell; [|done].
    apply Hex in Hcell as (k & p & Hp & Hin').
    assert (k ∈ pre.*1) as Hk by (apply Hdom; eauto).
    apply list_elem_of_fmap in Hk as (it' & -> & Hit').
    destruct (Hfree it' p Hit'); [by rewrite Hsame|].
    by exists r, c.
  - intros (Hy & Hcols & Hfree). split; [done|]. split; [done|].
    intros it' p Hit' Hp (r & c & Hin & Hin').
    rewrite Hsame in Hp by done.
    apply Hfree in Hin.
    assert (cell (grid st) r c = true) as Hcell by (apply Hex; eauto).
    congruence.
Qed.

(** The state after a prefix of a run over distinct keys. *)
Lemma prefix_state (pre rest : list Item) :
  NoDup (pre ++ rest).*1 →
  let st := foldl step initial pre in
  gridExact st
  ∧ (∀ k, is_Some (compacted st !! k) → k ∈ pre.*1)
  ∧ (∀ k, k ∈ pre.*1 →
       compacted (foldl step initial (pre ++ rest)) !! k = compacted st !! k).
Proof.
  intros Hnd st. rewrite fmap_app in Hnd.
  apply NoDup_app in Hnd as (Hpre & Hdisj & _).
  split; [|split].
  - apply run_gridExact; [done| |apply initial_gridExact].
    intros k _. simpl. rewrite dom_empty_L. apply not_elem_of_empty.
  - intros k Hk. apply elem_of_dom in Hk. unfold st in Hk.
    rewrite run_dom in Hk. simpl in Hk.
    rewrite dom_empty_L, (left_id_L ∅ (∪)) in Hk.
    by apply elem_of_list_to_set in Hk.
  - intros k Hk. rewrite foldl_app. fold st.
    apply run_lookup_other. by apply Hdisj.
Qed.

(** Where the run puts the item that follows a prefix. *)
Lemma lookup_after_prefix (pre : list Item) (it : Item) (post : list Item) :
  NoDup (pre ++ it :: post).*1 →
  compacted (foldl step initial (pre ++ it :: post)) !! it.1
  = Some (chosen (foldl step initial pre) it).
Proof.
  intros Hnd. rewrite fmap_app, fmap_cons in Hnd.
  apply NoDup_app in Hnd as (_ & _ & Hrest).
  apply NoDup_cons in Hrest as [Hit _].
  rewrite foldl_app. simpl. rewrite run_lookup_other by done.
  rewrite step_chosen. simpl. by rewrite lookup_insert_eq.
Qed.

Lemma chosen_scanned st it x y :
  firstFit (grid st) (ww it.2) (wh it.2) = Some (x, y) →
  chosen st it = mkLayout x y (ww it.2) (wh it.2).
Proof. intros E. unfold chosen. by rewrite E. Qed.

(** A layout that is first-fit packed in its own order is reproduced by
    [compactLayoutsUtil], key by key. *)
Lemma firstFitPacked_reproduced (layout : WidgetLayoutConfig)
    (visibleKeys : list string) :
  NoDup visibleKeys → firstFitPacked layout visibleKeys →
  ∀ pre rest, items layout visibleKeys = pre ++ rest →
    ∀ it, it ∈ pre →
      compacted (foldl step initial pre) !! it.1 = Some it.2.
Proof.
  intros Hnd Hpacked.
  pose proof (items_keys_NoDup layout visibleKeys Hnd) as Hkeys.
  induction pre as [|it0 pre IH] using rev_ind; intros rest Hitems it Hit.
  { by apply elem_of_nil in Hit. }
  rewrite <- app_assoc in Hitems. simpl in Hitems.
  specialize (IH (it0 :: rest) Hitems).
  rewrite Hitems in Hkeys.
  destruct (prefix_state pre (it0 :: rest) Hkeys) as (Hex & Hdom & _).
  set (st := foldl step initial pre) in *.
  destruct (Hpacked pre it0 rest Hitems) as (Hy & Hfree & Hmin).
  assert (∀ q, freeSlot layout pre q
               ↔ 0 ≤ wy q ∧ canPlace (grid st) (wx q) (wy q) (ww q) (wh q) = true)
    as Hslot.
  { intros q. apply freeSlot_canPlace_state; [done..|].
    intros it' Hit'. rewrite (IH it' Hit').
    assert (it' ∈ items layout visibleKeys) as Hin
      by (rewrite Hitems, elem_of_app; by left).
    destruct it' as [k' p']. by apply elem_of_items in Hin as [_ ?]. }
  assert (chosen st it0 = it0.2) as Hchosen.
  { apply Hslot in Hfree as [Hy0 Hfit].
    destruct (firstFit (grid st) (ww it0.2) (wh it0.2)) as [[x y]|] eqn:E.
    2:{ rewrite (firstFit_None _ _ _ E) in Hfit by lia. done. }
    rewrite (chosen_scanned _ _ _ _ E).
    apply firstFit_Some in E as (Hy' & Hfit' & Hmin').
    assert (scanLe (wx it0.2) (wy it0.2) x y) as H1.
    { apply Hmin. apply Hslot. simpl. split; [lia|done]. }
    assert (scanLe x y (wx it0.2) (wy it0.2)) as H2 by (by apply Hmin').
    destruct (scanLe_antisym _ _ _ _ H1 H2) as [Hx Hyy].
    clear -Hx Hyy. destruct it0 as [k0 [x0 y0 w0 h0]]; simpl in *.
    by subst. }
  rewrite foldl_app. simpl. fold st. rewrite step_chosen. simpl.
  apply elem_of_app in Hit as [Hit|Hit].
  - rewrite lookup_insert_ne; [by apply IH|].
    intros Heq. rewrite fmap_app, fmap_cons in Hkeys.
    apply NoDup_app in Hkeys as (_ & Hdisj & _).
    apply (Hdisj it.1); [by apply list_elem_of_fmap_2|].
    rewrite <- Heq. by left.
  - apply list_elem_of_singleton in Hit as ->.
    by rewrite lookup_insert_eq, Hchosen.
Qed.

Lemma firstFitPacked_fixpoint (layout : WidgetLayoutConfig)
    (visibleKeys : list string) :
  NoDup visibleKeys → firstFitPacked layout visibleKeys →
  (∀ k, is_Some (layout !! k) → k ∈ visibleKeys) →
  compactLayoutsUtil layout visibleKeys = layout.
Proof.
  intros Hnd Hpacked Hdom. apply map_eq. intros k.
  destruct (layout !! k) as [p|] eqn:Hp.
  - assert ((k, p) ∈ items layout visibleKeys) as Hin.
    { apply elem_of_items. split; [apply Hdom; eauto|done]. }
    unfold compactLayoutsUtil.
    apply (firstFitPacked_reproduced layout visibleKeys Hnd Hpacked
             (items layout visibleKeys) [] (eq_sym (app_nil_r _)) (k, p) Hin).
  - apply eq_None_not_Some. rewrite compact_lookup_is_Some, Hp.
    intros [_ [? ?]]. done.
Qed.

End PackedFacts.

Module IdempotenceFacts.
Import Compact CompactSpec CompactFacts ItemFacts RunFacts CompactMoreFacts.
Import PackedSpec PackedFacts.

(** *** The second pass meets no fallback either *)

Lemma totalHeight_Permutation (l l' : list Item) :
  l ≡ₚ l' → totalHeight l = totalHeight l'.
Proof.
  induction 1 as [|a l l' _ IH|a b l|l l' l'' _ IH _ IH']; simpl; lia.
Qed.

Lemma unsortedItems_cons (layout : WidgetLayoutConfig) k keys :
  unsortedItems layout (k :: keys)
  = match layout !! k with
    | Some p => (k, p) :: unsortedItems layout keys
    | None => unsortedItems layout keys
    end.
Proof. unfold unsortedItems. simpl. by destruct (layout !! k). Qed.

Lemma unsorted_heights (layout layout' : WidgetLayoutConfig) keys :
  (∀ k, k ∈ keys → is_Some (layout' !! k) ↔ is_Some (layout !! k)) →
  (∀ k p q, k ∈ keys → layout !! k = Some p → layout' !! k = Some q →
     wh q = wh p) →
  totalHeight (unsortedItems layout' keys) = totalHeight (unsortedItems layout keys).
Proof.
  induction keys as [|k keys IH]; intros Hdom Hh; [done|].
  assert (totalHeight (unsortedItems layout' keys)
          = totalHeight (unsortedItems layout keys)) as IH'.
  { apply IH; [intros k' Hk'; apply Hdom; by right|].
    intros k' p q Hk'. apply Hh. by right. }
  rewrite !unsortedItems_cons.
  destruct (layout !! k) as [p|] eqn:Hp; destruct (layout' !! k) as [q|] eqn:Hq.
  - simpl. rewrite IH'. f_equal. apply (Hh k); [by left|done..].
  - assert (is_Some (layout' !! k)) as [? ?]; [|congruence].
    apply Hdom; [by left|]. rewrite Hp. eauto.
  - assert (is_Some (layout !! k)) as [? ?]; [|congruence].
    apply Hdom; [by left|]. rewrite Hq. eauto.
  - done.
Qed.

Lemma second_pass_heights (layouts : WidgetLayoutConfig) visibleKeys :
  totalHeight (items (compactLayoutsUtil layouts visibleKeys) visibleKeys)
  = totalHeight (items layouts visibleKeys).
Proof.
  unfold items.
  rewrite (totalHeight_Permutation _ _ (sortItems_Permutation _)).
  rewrite (totalHeight_Permutation (sortItems _) _ (sortItems_Permutation _)).
  apply unsorted_heights.
  - intros k Hk. rewrite compact_lookup_is_Some. tauto.
  - intros k p q _ Hp Hq. apply run_keeps_size in Hq as (p' & Hp' & _ & ?).
    congruence.
Qed.

Lemma second_pass_scanned (layouts : WidgetLayoutConfig) visibleKeys :
  (∀ k p, k ∈ visibleKeys → layouts !! k = Some p →
     ww p ≤ GRID_COLS ∧ 1 ≤ wh p) →
  totalHeight (items layouts visibleKeys) ≤ 100 →
  placedByScan (compactLayoutsUtil layouts visibleKeys) visibleKeys = true.
Proof.
  intros Hsz Hsum. apply placedByScan_bounded.
  - intros k q Hk Hq. apply run_keeps_size in Hq as (p & Hp & -> & ->).
    by apply (Hsz k).
  - by rewrite second_pass_heights.
Qed.

(** *** A layout that compaction leaves alone is first-fit packed *)

Lemma fixpoint_firstFitPacked (layout : WidgetLayoutConfig) visibleKeys :
  NoDup visibleKeys →
  placedByScan layout visibleKeys = true →
  compactLayoutsUtil layout visibleKeys = layout →
  firstFitPacked layout visibleKeys.
Proof.
  intros Hnd Hall Hfix pre it post Hitems.
  pose proof (items_keys_NoDup layout visibleKeys Hnd) as Hkeys.
  unfold placedByScan in Hall. rewrite Hitems in Hall, Hkeys.
  rewrite allScanned_app in Hall. apply andb_true_iff in Hall as [_ Hall].
  simpl in Hall. apply andb_true_iff in Hall as [Hfit _].
  apply bool_decide_eq_true in Hfit as [[x y] E].
  set (st := foldl step initial pre) in *.
  assert (layout !! it.1 = Some (mkLayout x y (ww it.2) (wh it.2))) as Hl.
  { rewrite <- Hfix at 1. unfold compactLayoutsUtil. rewrite Hitems.
    rewrite (lookup_after_prefix pre it post Hkeys). fold st.
    by rewrite (chosen_scanned _ _ _ _ E). }
  assert (it.2 = mkLayout x y (ww it.2) (wh it.2)) as Hpos.
  { assert (it ∈ items layout visibleKeys) as Hin.
    { rewrite Hitems, elem_of_app, elem_of_cons. tauto. }
    destruct it as [k p]. apply elem_of_items in Hin as [_ Hp].
    simpl in *. congruence. }
  assert (∀ q, freeSlot layout pre q
               ↔ 0 ≤ wy q ∧ canPlace (grid st) (wx q) (wy q) (ww q) (wh q) = true)
    as Hslot.
  { intros q. pose proof (freeSlot_canPlace pre it post q Hkeys) as H.
    simpl in H. fold st in H. rewrite <- Hitems in H.
    unfold compactLayoutsUtil in Hfix. by rewrite Hfix in H. }
  apply firstFit_Some in E as (Hy & Hfit & Hmin).
  rewrite Hpos. simpl. split; [lia|]. split.
  - apply Hslot. simpl. split; [lia|done].
  - intros x' y' Hfree. apply Hslot in Hfree as [Hy' Hfit']. by apply Hmin.
Qed.

End IdempotenceFacts.

(** * Widgets of one height *)

Module ShelfFacts.
Import Compact CompactSpec CompactFacts ItemFacts RunFacts CompactMoreFacts.
Import PackedSpec PackedFacts IdempotenceFacts.

Lemma forallb_false_elem {A} (f : A → bool) (l : list A) :
  forallb f l = false → ∃ a, a ∈ l ∧ f a = false.
Proof.
  induction l as [|a l IH]; simpl; [done|].
  destruct (f a) eqn:Ha; simpl.
  - intros H. destruct (IH H) as (a' & Hin & Ha'). exists a'. split; [by right|done].
  - intros _. exists a. split; [by left|done].
Qed.

(** A slot within the columns that [canPlace] refuses holds a marked cell. *)
Lemma canPlace_false_cell (g : Grid) x y w h :
  withinColumns x w → canPlace g x y w h = false →
  ∃ r c, inFootprint (mkLayout x y w h) r c ∧ cell g r c = true.
Proof.
  intros [Hx Hw]. unfold canPlace, GRID_COLS in *.
  rewrite (proj2 (Z.ltb_ge x 0)) by done.
  assert ((x + w >? 12) = false) as ->.
  { rewrite Z.gtb_ltb. apply Z.ltb_ge. done. }
  simpl. intros H.
  apply forallb_false_elem in H as (dy & Hdy & H).
  apply forallb_false_elem in H as (dx & Hdx & H).
  apply negb_false_iff in H. apply elem_of_seqZ in Hdy, Hdx.
  exists (y + dy), (x + dx). split; [|done].
  unfold inFootprint; simpl. lia.
Qed.

Lemma band_unique h m m' r :
  1 ≤ h → h * m ≤ r < h * m + h → h * m' ≤ r < h * m' + h → m = m'.
Proof. intros Hh Hm Hm'. assert (m < m' + 1) by nia. assert (m' < m + 1) by nia. lia. Qed.

(** Within a band the rows of the grid read alike. *)
Lemma band_uniform h st m r r' c :
  1 ≤ h → gridExact st → shelved h st →
  h * m ≤ r < h * m + h → h * m ≤ r' < h * m + h →
  cell (grid st) r c = true → cell (grid st) r' c = true.
Proof.
  intros Hh Hex [Hent _] Hr Hr' Hcell.
  apply Hex in Hcell as (k & q & Hq & [Hrows Hcols]).
  destruct (Hent k q Hq) as (Hwh & _ & _ & m' & _ & Hwy).
  rewrite Hwh, Hwy in Hrows.
  assert (m = m') as -> by (apply (band_unique h m m' r); [done|lia|lia]).
  apply Hex. exists k, q. split; [done|]. split; [|done].
  rewrite Hwh, Hwy. lia.
Qed.

(** Where the scan puts a widget of height [h] on a shelved grid: at the
    start of a band, right after the marked stretch of that band. *)
Lemma shelf_placement h st w x y :
  1 ≤ h → 1 ≤ w → gridExact st → shelved h st →
  firstFit (grid st) w h = Some (x, y) →
  (∃ m, 0 ≤ m ∧ y = h * m)
  ∧ (∀ c', 0 ≤ c' < x → cell (grid st) y c' = true)
  ∧ (∀ k q, compacted st !! k = Some q → wy q = y → wx q < x).
Proof.
  intros Hh Hw Hex Hsh E.
  apply firstFit_Some in E as (Hy & Hfit & Hmin).
  apply canPlace_spec in Hfit as Hfit'. destruct Hfit' as [[Hx Hxw] Hfree].
  assert (∃ m, 0 ≤ m ∧ y = h * m) as (m & Hm & ->).
  { pose proof (Z.div_mod y h ltac:(lia)) as Hdiv.
    pose proof (Z.mod_pos_bound y h ltac:(lia)) as Hmod.
    assert (0 ≤ y / h) as Hq by (apply Z.div_pos; lia).
    exists (y / h). split; [done|].
    assert (canPlace (grid st) x (h * (y / h)) w h = true) as H0.
    { apply canPlace_spec. split; [done|].
      intros r c [Hr Hc]. simpl in Hr, Hc.
      destruct (cell (grid st) r c) eqn:Hcell; [|done].
      apply (band_uniform h st (y / h) r y c) in Hcell; [|done..|lia|lia].
      rewrite (Hfree y c) in Hcell; [done|].
      unfold inFootprint; simpl. lia. }
    apply Hmin in H0; [|nia]. unfold scanLe in H0. lia. }
  assert (∀ c', 0 ≤ c' < x → cell (grid st) (h * m) c' = true) as Hfill.
  { intros c' Hc'. destruct (cell (grid st) (h * m) c') eqn:Hcell; [done|].
    exfalso.
    assert (canPlace (grid st) c' (h * m) w h = true) as H0.
    { apply canPlace_spec. split; [unfold withinColumns; lia|].
      intros r c [Hr Hc]. simpl in Hr, Hc.
      destruct (cell (grid st) r c) eqn:Hcell'; [|done].
      apply (band_uniform h st m r (h * m) c) in Hcell'; [|done..|lia|lia].
      destruct Hsh as [_ Hprefix].
      rewrite (Hprefix (h * m) c c') in Hcell; [done|lia|done]. }
    apply Hmin in H0; [|lia]. unfold scanLe in H0. lia. }
  split; [eauto|]. split; [done|].
  intros k q Hq Hwy.
  destruct (proj1 Hsh k q Hq) as (Hwh & Hww & Hwx & _).
  destruct (decide (wx q < x)) as [|Hge]; [done|]. exfalso.
  assert (cell (grid st) (h * m) (wx q) = true) as Hcell.
  { apply Hex. exists k, q. split; [done|]. unfold inFootprint. lia. }
  destruct Hsh as [_ Hprefix].
  apply (Hprefix (h * m) (wx q) x) in Hcell; [|lia].
  rewrite (Hfree (h * m) x) in Hcell; [done|].
  unfold inFootprint; simpl. lia.
Qed.

Lemma step_shelved h st (it : Item) :
  1 ≤ h → wh it.2 = h → 1 ≤ ww it.2 →
  gridExact st → shelved h st →
  is_Some (firstFit (grid st) (ww it.2) (wh it.2)) →
  shelved h (step st it).
Proof.
  intros Hh Hwh Hww Hex Hsh [[x y] E].
  rewrite Hwh in E.
  destruct (shelf_placement h st (ww it.2) x y Hh Hww Hex Hsh E)
    as ((m & Hm & Hy) & Hfill & _).
  apply firstFit_Some in E as HE. destruct HE as (_ & Hfit & _).
  apply canPlace_spec in Hfit as [[Hx _] _].
  unfold step. rewrite Hwh, E. split; simpl.
  - intros k q. destruct (decide (it.1 = k)) as [<-|Hne].
    + rewrite lookup_insert_eq. intros [= <-]. simpl. eauto 10.
    + rewrite lookup_insert_ne by done. apply (proj1 Hsh).
  - intros r c c' Hc'. rewrite !occupy_spec.
    intros [[Hr Hc]|Hold].
    + simpl in Hr, Hc. destruct (decide (x ≤ c')) as [|Hlt].
      * left. unfold inFootprint; simpl. lia.
      * right. apply (band_uniform h st m y r c'); [done..|lia|lia|].
        apply Hfill. lia.
    + right. by apply (proj2 Hsh r c c').
Qed.

Lemma run_shelved h st (its : list Item) :
  1 ≤ h → Forall (λ it : Item, wh it.2 = h ∧ 1 ≤ ww it.2) its →
  NoDup its.*1 → (∀ k, k ∈ its.*1 → k ∉ dom (compacted st)) →
  allScanned st its = true →
  gridExact st → shelved h st →
  shelved h (foldl step st its).
Proof.
  intros Hh. revert st.
  induction its as [|it its IH]; intros st Hsz Hnd Hfresh Hall Hex Hsh; simpl.
  - done.
  - apply Forall_cons in Hsz as [[Hwh Hww] Hsz].
    rewrite fmap_cons in Hnd. apply NoDup_cons in Hnd as [Hit Hnd].
    simpl in Hall. apply andb_true_iff in Hall as [Hfit Hall].
    apply bool_decide_eq_true in Hfit.
    apply IH; [done|done| |done| |].
    + intros k Hk. rewrite step_chosen; simpl. rewrite dom_insert_L.
      apply not_elem_of_union. split.
      * apply not_elem_of_singleton. by intros ->.
      * apply Hfresh. rewrite fmap_cons. by right.
    + apply step_gridExact; [|done]. apply Hfresh. rewrite fmap_cons. by left.
    + by apply step_shelved.
Qed.

Lemma initial_shelved h : shelved h initial.
Proof.
  split.
  - intros k q. simpl. by rewrite lookup_empty.
  - intros r c c' _. simpl. by rewrite cell_empty.
Qed.

(** The result of one pass over widgets of one height is packed: the second
    pass, which sorts by the placements of the first, finds every widget
    already at its least free slot. *)
Lemma equal_heights_packed (layouts : WidgetLayoutConfig) visibleKeys h :
  NoDup visibleKeys →
  (∀ k p, k ∈ visibleKeys → layouts !! k = Some p → validPlacement p) →
  totalHeight (items layouts visibleKeys) ≤ 100 →
  (∀ k p, k ∈ visibleKeys → layouts !! k = Some p → wh p = h) →
  firstFitPacked (compactLayoutsUtil layouts visibleKeys) visibleKeys.
Proof.
  intros Hnd Hvalid Htotal Hh pre' it' post' Hitems'.
  set (out := compactLayoutsUtil layouts visibleKeys) in *.
  pose proof (items_keys_NoDup layouts visibleKeys Hnd) as Hkeys.
  pose proof (items_keys_NoDup out visibleKeys Hnd) as Hkeys'.
  pose proof (items_Sorted out visibleKeys) as Hsorted.
  rewrite Hitems' in Hkeys', Hsorted.
  assert (placedByScan layouts visibleKeys = true) as Hall.
  { apply placedByScan_bounded; [|done].
    intros k p Hk Hp. destruct (Hvalid k p Hk Hp) as (? & ? & ? & ? & ?).
    unfold GRID_COLS in *. lia. }
  assert (footprintsMarked initial ∧ noOverlap (compacted initial)) as [Hfm0 Hno0].
  { split.
    - intros k p r c. simpl. by rewrite lookup_empty.
    - intros k1 k2 p1 p2 _. simpl. by rewrite lookup_empty. }
  destruct (run_scanned_noOverlap initial (items layouts visibleKeys) Hall Hfm0 Hno0)
    as [_ Hno]. fold (compactLayoutsUtil layouts visibleKeys) in Hno. fold out in Hno.
  destruct it' as [k p].
  assert ((k, p) ∈ items out visibleKeys) as Hin'.
  { rewrite Hitems', elem_of_app, elem_of_cons. tauto. }
  apply elem_of_items in Hin' as [Hk Hp].
  assert (is_Some (layouts !! k)) as [p0 Hp0].
  { apply (proj1 (compact_lookup_is_Some layouts visibleKeys k)).
    exists p. exact Hp. }
  assert ((k, p0) ∈ items layouts visibleKeys) as Hin by (by apply elem_of_items).
  apply list_elem_of_split in Hin as (pre & post & Hitems).
  unfold placedByScan in Hall. rewrite Hitems in Hall, Hkeys.
  rewrite allScanned_app in Hall. apply andb_true_iff in Hall as [Hpre Hall].
  simpl in Hall. apply andb_true_iff in Hall as [Hfit _].
  apply bool_decide_eq_true in Hfit as [[x y] E].
  set (st := foldl step initial pre) in *.
  assert (p = mkLayout x y (ww p0) (wh p0)) as ->.
  { assert (out !! k = Some (mkLayout x y (ww p0) (wh p0))) as Hl.
    { unfold out, compactLayoutsUtil. rewrite Hitems.
      etrans; [apply (lookup_after_prefix pre (k, p0) post Hkeys)|].
      fold st. by rewrite (chosen_scanned st (k, p0) x y E). }
    congruence. }
  destruct (Hvalid k p0 Hk Hp0) as (_ & _ & Hw0 & Hh0 & _).
  rewrite (Hh k p0 Hk Hp0) in *. simpl in E.
  destruct (prefix_state pre ((k, p0) :: post) Hkeys) as (Hex & Hdom & Hsame').
  fold st in Hex, Hdom, Hsame'.
  assert (∀ k0, k0 ∈ pre.*1 → out !! k0 = compacted st !! k0) as Hsame.
  { intros k0 Hk0. unfold out, compactLayoutsUtil. rewrite Hitems.
    by apply Hsame'. }
  clear Hsame'.
  assert (∀ it, it ∈ pre → it ∈ items layouts visibleKeys) as Hsub.
  { intros it Hit. rewrite Hitems, elem_of_app. by left. }
  assert (shelved h st) as Hsh.
  { apply run_shelved; [done| | | |done|apply initial_gridExact|apply initial_shelved].
    - apply Forall_forall. intros [k1 p1] Hit. apply Hsub in Hit.
      apply elem_of_items in Hit as [Hk1 Hp1]. simpl.
      destruct (Hvalid k1 p1 Hk1 Hp1) as (_ & _ & ? & _ & _).
      split; [by apply (Hh k1)|done].
    - rewrite fmap_app in Hkeys. by apply NoDup_app in Hkeys as [? _].
    - intros k1 _. simpl. rewrite dom_empty_L. apply not_elem_of_empty. }
  destruct (shelf_placement h st (ww p0) x y Hh0 Hw0 Hex Hsh E)
    as ((m & Hm & Hy) & _ & Hleft).
  apply firstFit_Some in E as (Hrows & Hfit & Hmin).
  apply canPlace_spec in Hfit as Hfit'. destruct Hfit' as [Hcols _].
  assert (∀ it q, it ∈ pre' → out !! it.1 = Some q → it.1 ≠ k) as Hother.
  { intros it q Hit _ Heq. rewrite fmap_app, fmap_cons in Hkeys'.
    apply NoDup_app in Hkeys' as (_ & Hdisj & _).
    apply (Hdisj it.1); [by apply list_elem_of_fmap_2|]. simpl. rewrite Heq. by left. }
  simpl. split; [lia|]. split.
  - split; [done|]. split; [simpl; lia|].
    intros it q Hit Hq. simpl. apply (Hno k it.1); [|done..].
    intros Heq. by apply (Hother it q).
  - intros x' y' (Hcols' & Hy' & Hfree). simpl in Hcols', Hy', Hfree.
    destruct (decide (scanLe x y x' y')) as [|Hlt]; [done|]. exfalso.
    assert (canPlace (grid st) x' y' (ww p0) h = false) as Hno'.
    { destruct (canPlace (grid st) x' y' (ww p0) h) eqn:Hc; [|done].
      destruct Hlt. by apply Hmin. }
    apply canPlace_false_cell in Hno' as (r & c & Hfoot & Hcell); [|done].
    apply Hex in Hcell as (kX & qX & HqX & HfootX).
    assert (kX ∈ pre.*1) as HkX by (apply Hdom; by rewrite HqX).
    assert (out !! kX = Some qX) as HoutX by (by rewrite Hsame).
    destruct (proj1 Hsh kX qX HqX) as (HwhX & _ & _ & mX & _ & HwyX).
    assert (¬ scanLe x y (wx qX) (wy qX)) as Hstrict.
    { unfold scanLe in *. destruct Hfoot as [Hr _], HfootX as [HrX _].
      simpl in Hr. rewrite HwhX, HwyX in HrX.
      assert (mX < m + 1) by nia.
      destruct (decide (mX = m)) as [->|].
      - specialize (Hleft kX qX HqX ltac:(lia)). lia.
      - assert (h * mX + h ≤ h * m) by nia. lia. }
    assert ((kX, qX) ∈ items out visibleKeys) as HinX.
    { apply elem_of_items. split; [|done].
      apply list_elem_of_fmap in HkX as ([k1 p1] & -> & Hit).
      apply Hsub in Hit. by apply elem_of_items in Hit as [? _]. }
    rewrite Hitems', elem_of_app, elem_of_cons in HinX.
    destruct HinX as [HinX|[HeqX|HinX]].
    + apply (Hfree (kX, qX) qX HinX HoutX). by exists r, c.
    + injection HeqX as -> ->. simpl in Hstrict. unfold scanLe in Hstrict. lia.
    + apply Sorted_StronglySorted in Hsorted; [|apply before_Transitive].
      apply StronglySorted_app_1_r, StronglySorted_cons in Hsorted as [Hall' _].
      rewrite Forall_forall in Hall'. apply Hall' in HinX.
      apply before_scanLe in HinX. by simpl in HinX.
Qed.

End ShelfFacts.

(** * Compacting twice *)

Module IdempotenceClaims.
Import Compact CompactSpec CompactFacts ItemFacts RunFacts CompactMoreFacts.
Import PackedSpec PackedFacts IdempotenceFacts ShelfFacts.

(** C3, as amended. For a visible sequence without repetitions whose visible
    widgets satisfy the invariant of the data model and whose heights add up
    to at most 100: compacting the compacted layout again (same visible
    sequence) yields the identical layout exactly when the compacted layout
    is first-fit packed, that is, when each of its widgets sits at the least
    free slot relative to the widgets that precede it in the compacted
    layout's own (y, x) order; and this is the case whenever the visible
    widgets all have the same height. *)
Theorem compact_idempotent (layouts : WidgetLayoutConfig)
    (visibleKeys : list string) :
  NoDup visibleKeys →
  (∀ k p, k ∈ visibleKeys → layouts !! k = Some p → validPlacement p) →
  totalHeight (items layouts visibleKeys) ≤ 100 →
  (compactLayoutsUtil (compactLayoutsUtil layouts visibleKeys) visibleKeys
     = compactLayoutsUtil layouts visibleKeys
   ↔ firstFitPacked (compactLayoutsUtil layouts visibleKeys) visibleKeys)
  ∧ ((∃ h, ∀ k p, k ∈ visibleKeys → layouts !! k = Some p → wh p = h) →
     firstFitPacked (compactLayoutsUtil layouts visibleKeys) visibleKeys
     ∧ compactLayoutsUtil (compactLayoutsUtil layouts visibleKeys) visibleKeys
       = compactLayoutsUtil layouts visibleKeys).
Proof.
  intros Hnd Hvalid Htotal.
  assert (firstFitPacked (compactLayoutsUtil layouts visibleKeys) visibleKeys →
          compactLayoutsUtil (compactLayoutsUtil layouts visibleKeys) visibleKeys
          = compactLayoutsUtil layouts visibleKeys) as Hback.
  { intros Hpacked. apply firstFitPacked_fixpoint; [done..|].
    intros k Hk. by apply compact_lookup_is_Some in Hk as [? _]. }
  split; [split; [|done]|].
  - intros Hfix. apply fixpoint_firstFitPacked; [done| |done].
    apply second_pass_scanned; [|done].
    intros k p Hk Hp. destruct (Hvalid k p Hk Hp) as (? & ? & ? & ? & ?).
    unfold GRID_COLS in *. lia.
  - intros [h Hh].
    assert (firstFitPacked (compactLayoutsUtil layouts visibleKeys) visibleKeys)
      as Hpacked by (by apply (equal_heights_packed layouts visibleKeys h)).
    split; [done|]. by apply Hback.
Qed.

Lemma compact_idempotent_witness :
  NoDup ["A"; "B"]
  ∧ (∀ k p, k ∈ ["A"; "B"] → exampleLayout !! k = Some p → validPlacement p)
  ∧ totalHeight (items exampleLayout ["A"; "B"]) ≤ 100
  ∧ (∀ k p, k ∈ ["A"; "B"] → exampleLayout !! k = Some p → wh p = 2)
  ∧ firstFitPacked (compactLayoutsUtil exampleLayout ["A"; "B"]) ["A"; "B"]
  ∧ compactLayoutsUtil (compactLayoutsUtil exampleLayout ["A"; "B"]) ["A"; "B"]
    = compactLayoutsUtil exampleLayout ["A"; "B"].
Proof.
  assert (NoDup ["A"; "B"]) as Hnd.
  { apply NoDup_cons. split; [|apply NoDup_singleton].
    intros Hin. apply list_elem_of_singleton in Hin. discriminate Hin. }
  assert (∀ k p, exampleLayout !! k = Some p → validPlacement p ∧ wh p = 2)
    as Hex.
  { intros k p. unfold exampleLayout.
    destruct (decide (k = "A")) as [->|HA].
    { rewrite lookup_insert_eq. intros [= <-].
      unfold validPlacement, GRID_COLS; simpl; lia. }
    rewrite lookup_insert_ne by done.
    destruct (decide (k = "B")) as [->|HB].
    { rewrite lookup_singleton_eq. intros [= <-].
      unfold validPlacement, GRID_COLS; simpl; lia. }
    by rewrite lookup_singleton_ne. }
  assert (∀ k p, k ∈ ["A"; "B"] → exampleLayout !! k = Some p → validPlacement p)
    as Hvalid by (intros k p _ Hp; apply (Hex k p Hp)).
  assert (∀ k p, k ∈ ["A"; "B"] → exampleLayout !! k = Some p → wh p = 2)
    as Hh by (intros k p _ Hp; apply (Hex k p Hp)).
  assert (totalHeight (items exampleLayout ["A"; "B"]) ≤ 100) as Htotal
    by (vm_compute; discriminate).
  split; [exact Hnd|]. split; [exact Hvalid|]. split; [exact Htotal|].
  split; [exact Hh|].
  apply (proj2 (compact_idempotent exampleLayout ["A"; "B"] Hnd Hvalid Htotal)).
  exists 2. exact Hh.
Defined.

(** [shelfLayout] meets the three hypotheses above; its widgets differ in
    height, and its compacted layout is not first-fit packed. *)
Example shelfLayout_not_packed :
  NoDup ["A"; "X"; "W"]
  ∧ (∀ k p, shelfLayout !! k = Some p → validPlacement p)
  ∧ totalHeight (items shelfLayout ["A"; "X"; "W"]) ≤ 100
  ∧ ¬ firstFitPacked (compactLayoutsUtil shelfLayout ["A"; "X"; "W"])
                     ["A"; "X"; "W"].
Proof.
  assert (NoDup ["A"; "X"; "W"]) as Hnd.
  { apply NoDup_cons. split; [|apply NoDup_cons; split; [|apply NoDup_singleton]].
    - rewrite !elem_of_cons.
      intros [H|[H|H]]; [discriminate H..|by apply elem_of_nil in H].
    - intros Hin. apply list_elem_of_singleton in Hin. discriminate Hin. }
  split; [exact Hnd|]. split; [|split; [vm_compute; discriminate|]].
  - intros k p. unfold shelfLayout.
    destruct (decide (k = "A")) as [->|HA].
    { rewrite lookup_insert_eq. intros [= <-].
      unfold validPlacement, GRID_COLS; simpl; lia. }
    rewrite lookup_insert_ne by done.
    destruct (decide (k = "X")) as [->|HX].
    { rewrite lookup_insert_eq. intros [= <-].
      unfold validPlacement, GRID_COLS; simpl; lia. }
    rewrite lookup_insert_ne by done.
    destruct (decide (k = "W")) as [->|HW].
    { rewrite lookup_singleton_eq. intros [= <-].
      unfold validPlacement, GRID_COLS; simpl; lia. }
    by rewrite lookup_singleton_ne.
  - intros Hpacked.
    apply firstFitPacked_fixpoint in Hpacked; [|done|].
    + apply (f_equal (λ m : WidgetLayoutConfig, m !! "W")) in Hpacked.
      vm_compute in Hpacked. discriminate Hpacked.
    + intros k Hk. by apply compact_lookup_is_Some in Hk as [? _].
Qed.

End IdempotenceClaims.
